(** * Project planner: the Gantt chart component and the plan synthesis engine

    Part I embeds [new-project/frontend/src/components/GanttChart.jsx]: the
    completion toggle, the progress aggregates (overall percentage, the five
    milestones) and the per-member team view.

    Part II models the plan synthesis and scheduling engine (normalizer,
    dependency resolver, date scheduler, assignment balancer, fallback
    generator, assembler).  The backend module that implements it is not among
    the sources, so that part is modelled from the specification.

    Part III embeds [handleSend] of the chat panel
    ([new-project/frontend/src/components/ChatPanel.jsx] and its twin
    [ChatInterface.jsx]), with what React does with the state updates the
    handler enqueues. *)

From Stdlib Require Import ZArith List String Ascii Bool Arith Lia Permutation Sorted.
From Stdlib Require Import Floats Uint63 DecimalString.
Import ListNotations.

Set Warnings "-register-all".

Open Scope bool_scope.
Open Scope string_scope.
Open Scope list_scope.

(* ===================================================================== *)
(** * Part I — GanttChart.jsx                                             *)
(* ===================================================================== *)

(** ** JavaScript numbers

    A JS number is an IEEE 754 binary64 value; Rocq's primitive floats are the
    same format with the same rounding, so the arithmetic of the component is
    evaluated bit for bit, [0/0 = NaN] included. *)
Module JsNumber.

Definition number := float.

(** [array.length] and counts of elements: a non-negative integer below 2^32,
    converted exactly. *)
Definition of_nat (n : nat) : number :=
  PrimFloat.of_uint63 (Uint63.of_Z (Z.of_nat n)).

Definition of_Z (z : Z) : number :=
  if (z <? 0)%Z then PrimFloat.opp (PrimFloat.of_uint63 (Uint63.of_Z (- z)))
  else PrimFloat.of_uint63 (Uint63.of_Z z).

(** [a >= b]: false as soon as one side is NaN. *)
Definition ge (a b : number) : bool := PrimFloat.leb b a.

Definition two52 : number := 4503599627370496%float.

(** [Math.floor] on the range where a binary64 value can have a fractional
    part; beyond 2^52 (and on NaN and the infinities, where the comparison
    is false) the argument is returned. *)
Definition floor (x : number) : number :=
  if PrimFloat.ltb (PrimFloat.abs x) two52 then
    let t := if PrimFloat.leb 0%float x
             then PrimFloat.sub (PrimFloat.add x two52) two52
             else PrimFloat.add (PrimFloat.sub x two52) two52 in
    if PrimFloat.ltb x t then PrimFloat.sub t 1%float else t
  else x.

(** [Math.round]: the nearest integer, a tie going towards +Infinity;
    NaN, the infinities and integral values are returned unchanged, and a
    result of zero keeps the sign of the argument. *)
Definition round (x : number) : number :=
  if PrimFloat.ltb (PrimFloat.abs x) two52 then
    let f := floor x in
    let r := if PrimFloat.ltb (PrimFloat.sub x f) 0.5%float
             then f else PrimFloat.add f 1%float in
    if PrimFloat.eqb r 0%float then
      (if PrimFloat.ltb x 0%float then PrimFloat.opp 0%float
       else if PrimFloat.eqb x 0%float then x else 0%float)
    else r
  else x.

End JsNumber.

(** ** Plain JS objects used as dictionaries

    [const o = {}] creates an object whose prototype is [Object.prototype]:
    reading [o[k]] for a key that is not an own property walks the prototype
    chain.  Own properties are kept in creation order. *)
Module JsObject.

Section Dict.
Context {V : Type}.

Definition t := list (string * V).

(** The property names every plain object inherits. *)
Definition object_prototype_keys : list string :=
  [ "constructor"; "__defineGetter__"; "__defineSetter__"; "hasOwnProperty";
    "__lookupGetter__"; "__lookupSetter__"; "isPrototypeOf";
    "propertyIsEnumerable"; "toString"; "valueOf"; "__proto__";
    "toLocaleString" ].

Definition inherited (k : string) : bool :=
  existsb (String.eqb k) object_prototype_keys.

(** What [o[k]] evaluates to. *)
Inductive lookup :=
| Own (v : V)          (* an own property *)
| Inherited            (* a function or object found on Object.prototype *)
| Undefined.

Fixpoint own (o : t) (k : string) : option V :=
  match o with
  | [] => None
  | (k', v) :: o' => if String.eqb k' k then Some v else own o' k
  end.

Definition get (o : t) (k : string) : lookup :=
  match own o k with
  | Some v => Own v
  | None => if inherited k then Inherited else Undefined
  end.

(** [!o[k]]: arrays, functions and objects are truthy, [undefined] is not. *)
Definition falsy (l : lookup) : bool :=
  match l with Undefined => true | _ => false end.

(** [o[k] = v] for a key that is an own property or is not inherited:
    an existing property keeps its place, a new one goes last. *)
Fixpoint set (o : t) (k : string) (v : V) : t :=
  match o with
  | [] => [(k, v)]
  | (k', v') :: o' =>
      if String.eqb k' k then (k', v) :: o' else (k', v') :: set o' k v
  end.

(** Array-index keys: the canonical decimal spelling of an integer in
    0 .. 2^32 - 2. *)
Definition digit_of (c : ascii) : option N :=
  let n := N_of_ascii c in
  if (48 <=? n)%N && (n <=? 57)%N then Some (n - 48)%N else None.

Fixpoint digits_value (s : string) (acc : N) : option N :=
  match s with
  | EmptyString => Some acc
  | String c s' =>
      match digit_of c with
      | Some d => digits_value s' (10 * acc + d)%N
      | None => None
      end
  end.

Definition array_index (k : string) : option N :=
  match k with
  | EmptyString => None
  | String c rest =>
      if Ascii.eqb c "0"%char && negb (String.eqb rest "") then None
      else match digits_value k 0 with
           | Some v => if (v <=? 4294967294)%N then Some v else None
           | None => None
           end
  end.

Fixpoint insert_by_index (i : N) (e : string * V) (l : list (N * (string * V)))
  : list (N * (string * V)) :=
  match l with
  | [] => [(i, e)]
  | (j, e') :: l' =>
      if (i <=? j)%N then (i, e) :: l else (j, e') :: insert_by_index i e l'
  end.

Fixpoint index_entries (o : t) : list (N * (string * V)) :=
  match o with
  | [] => []
  | (k, v) :: o' =>
      match array_index k with
      | Some i => insert_by_index i (k, v) (index_entries o')
      | None => index_entries o'
      end
  end.

Definition named_entries (o : t) : t :=
  filter (fun e => match array_index (fst e) with Some _ => false | None => true end) o.

(** [Object.entries(o)]: array-index keys in ascending numeric order, then
    the other string keys in creation order. *)
Definition entries (o : t) : list (string * V) :=
  map snd (index_entries o) ++ named_entries o.

(** The total size of the values, for values that have one. *)
Definition weight (size : V -> nat) (o : t) : nat :=
  list_sum (map (fun e => size (snd e)) o).

End Dict.
Arguments t : clear implicits.
Arguments lookup : clear implicits.

End JsObject.

(** ** The component *)
Module Gantt.

Import JsNumber.

(** Task ids arrive as JSON primitives; [===] never equates a number with a
    string. *)
Inductive JsId :=
| IdNum (n : Z)
| IdStr (s : string).

Definition strict_eq (a b : JsId) : bool :=
  match a, b with
  | IdNum x, IdNum y => Z.eqb x y
  | IdStr x, IdStr y => String.eqb x y
  | _, _ => false
  end.

(** A task object as the component receives it in [plan.tasks]. *)
Record Task := mkTask {
  id : JsId;
  name : string;
  description : string;
  assignee : string;
  priority : string;
  status : string;
  start_date : string;      (* ISO date text, read with parseISO *)
  end_date : string;
  duration_days : Z;
  depends_on : list JsId
}.

(** [{ ...task, status: s }] *)
Definition with_status (task : Task) (s : string) : Task :=
  {| id := id task; name := name task; description := description task;
     assignee := assignee task; priority := priority task; status := s;
     start_date := start_date task; end_date := end_date task;
     duration_days := duration_days task; depends_on := depends_on task |}.

(** The state updater passed to [setTasks] by [toggleTaskStatus(taskId)]. *)
Definition toggleTaskStatus (taskId : JsId) (prevTasks : list Task) : list Task :=
  map (fun task =>
         if strict_eq (id task) taskId
         then with_status task
                (if String.eqb (status task) "completed" then "pending" else "completed")
         else task)
      prevTasks.

Definition is_completed (t : Task) : bool := String.eqb (status t) "completed".

Definition completedTasks (tasks : list Task) : nat :=
  List.length (filter is_completed tasks).

(** [Math.round((completedTasks / tasks.length) * 100)] *)
Definition percent (done total : nat) : number :=
  round (PrimFloat.mul (PrimFloat.div (of_nat done) (of_nat total)) 100%float).

Definition overallProgress (tasks : list Task) : number :=
  percent (completedTasks tasks) (List.length tasks).

Record Milestone := mkMilestone {
  m_name : string;
  percentage : Z;
  completed : bool
}.

(** A [const] of the render body: the component's state holds the task array
    only, and the milestones are computed from it at every render. *)
Definition milestones (tasks : list Task) : list Milestone :=
  let overall := overallProgress tasks in
  [ mkMilestone "Project Start" 0 true;
    mkMilestone "Planning Phase" 25 (ge overall 25%float);
    mkMilestone "Development Phase" 50 (ge overall 50%float);
    mkMilestone "Testing Phase" 75 (ge overall 75%float);
    mkMilestone "Project Complete" 100 (ge overall 100%float) ].

(** *** Grouping by assignee *)

Inductive JsResult (A : Type) :=
| Ok (a : A)
| TypeError.
Arguments Ok {A} a.
Arguments TypeError {A}.

Definition bind {A B} (r : JsResult A) (k : A -> JsResult B) : JsResult B :=
  match r with Ok a => k a | TypeError => TypeError end.

(** One iteration of the [forEach] body:
    [if (!o[k]) o[k] = []] and then [o[k].push(task)], with [k = task.assignee].
    A value inherited from the prototype is truthy and has no [push]. *)
Definition group_step (o : JsObject.t (list Task)) (task : Task)
  : JsResult (JsObject.t (list Task)) :=
  let k := assignee task in
  let o1 := if JsObject.falsy (JsObject.get o k) then JsObject.set o k [] else o in
  match JsObject.get o1 k with
  | JsObject.Own arr => Ok (JsObject.set o1 k (arr ++ [task]))
  | JsObject.Inherited => TypeError
  | JsObject.Undefined => TypeError
  end.

Fixpoint group_from (o : JsObject.t (list Task)) (ts : list Task)
  : JsResult (JsObject.t (list Task)) :=
  match ts with
  | [] => Ok o
  | task :: rest => bind (group_step o task) (fun o' => group_from o' rest)
  end.

Definition tasksByMember (tasks : list Task) : JsResult (JsObject.t (list Task)) :=
  group_from [] tasks.

(** [getColorScheme]: the index into [neonColors], the sum of the character
    codes modulo the six colours (the strings here are made of 8-bit
    characters, whose codes are their [charCodeAt]). *)
Fixpoint char_code_sum (s : string) : nat :=
  match s with
  | EmptyString => 0
  | String c s' => nat_of_ascii c + char_code_sum s'
  end.

Definition getColorScheme (member : string) : nat := char_code_sum member mod 6.

Record MemberProgress := mkMemberProgress {
  member : string;
  member_tasks : list Task;
  member_completed : nat;
  total : nat;
  progress : number;
  colorScheme : nat
}.

Definition member_entry (e : string * list Task) : MemberProgress :=
  let '(m, memberTasks) := e in
  let c := List.length (filter is_completed memberTasks) in
  let n := List.length memberTasks in
  mkMemberProgress m memberTasks c n (percent c n) (getColorScheme m).

Definition teamProgress (tasks : list Task) : JsResult (list MemberProgress) :=
  bind (tasksByMember tasks) (fun o => Ok (map member_entry (JsObject.entries o))).

(** *** Vocabulary of the statements about the component *)

(** Two task objects that agree on every property but [status]. *)
Definition same_except_status (t t' : Task) : Prop :=
  id t' = id t /\ name t' = name t /\ description t' = description t /\
  assignee t' = assignee t /\ priority t' = priority t /\
  start_date t' = start_date t /\ end_date t' = end_date t /\
  duration_days t' = duration_days t /\ depends_on t' = depends_on t.

(** The two statuses of the data model. *)
Definition valid_status (s : string) : Prop := s = "pending" \/ s = "completed".

(** The callback of [map] inside [toggleTaskStatus], named. *)
Definition flip (s : string) : string :=
  if String.eqb s "completed" then "pending" else "completed".

Definition toggle_one (taskId : JsId) (task : Task) : Task :=
  if strict_eq (id task) taskId then with_status task (flip (status task)) else task.

(** A sequence of clicks, each one toggling the task with the given id. *)
Definition toggle_all (clicks : list JsId) (ts : list Task) : list Task :=
  fold_left (fun acc taskId => toggleTaskStatus taskId acc) clicks ts.

(** The tasks of [pre] assigned to [k], when there are any. *)
Definition pick (k : string) (pre : list Task) : option (list Task) :=
  match filter (fun t => String.eqb (assignee t) k) pre with
  | [] => None
  | l => Some l
  end.

(** The object built by the grouping loop after the tasks [pre]. *)
Record grouped (o : JsObject.t (list Task)) (pre : list Task) : Prop := {
  g_keys : NoDup (map fst o);
  g_own : forall k, JsObject.own o k = pick k pre;
  g_weight : JsObject.weight (@List.length Task) o = List.length pre
}.

(** [Math.round(c / n * 100)] on integers given in binary, and the comparison
    of the four computed milestone flags with their integer characterisation:
    the rounded percentage reaches [p] exactly when [200 c >= (2 p - 1) n]. *)
Definition percentZ (c n : Z) : number :=
  round (PrimFloat.mul
           (PrimFloat.div (PrimFloat.of_uint63 (Uint63.of_Z c))
                          (PrimFloat.of_uint63 (Uint63.of_Z n)))
           100%float).

Definition reached (p : Z) (c n : Z) : bool := ((2 * p - 1) * n <=? 200 * c)%Z.

Definition agreeZ (c n : Z) : bool :=
  let o := percentZ c n in
  Bool.eqb (ge o 25%float) (reached 25 c n) &&
  Bool.eqb (ge o 50%float) (reached 50 c n) &&
  Bool.eqb (ge o 75%float) (reached 75 c n) &&
  Bool.eqb (ge o 100%float) (reached 100 c n).

Fixpoint agree_row (fuel : nat) (c n : Z) : bool :=
  match fuel with
  | O => true
  | S f => agreeZ c n && agree_row f (c + 1)%Z n
  end.

Fixpoint agree_rows (fuel : nat) (n : Z) : bool :=
  match fuel with
  | O => true
  | S f => agree_row (Z.to_nat (n + 1)) 0 n && agree_rows f (n + 1)%Z
  end.

(** The largest task count for which the flags are compared exhaustively. *)
Definition checked_size : nat := 1000.

(** Sample tasks. *)
Definition sample (i : Z) (who st : string) : Task :=
  mkTask (IdNum i) "Task" "" who "medium" st "2024-01-01" "2024-01-03" 2 [].

Definition thirteen_of_53 : list Task :=
  repeat (sample 1 "Ann" "completed") 13 ++ repeat (sample 2 "Ann" "pending") 40.

End Gantt.

(* ===================================================================== *)
(** * Part II — the plan synthesis and scheduling engine                  *)
(* ===================================================================== *)

(** The engine lives in the backend ([main.py], formerly [app.py]), which is
    not among the sources: every definition of this module is written from
    the specification (sections 3 to 7), with the policy constants the
    specification leaves open fixed as it suggests (default duration 2 days,
    default timeline 30 days, ids numbered from 0 in input order). *)
Module Engine.

(** ** Data model *)

(** Modelled from the spec: the decoded JSON payload of the AI provider, of
    undetermined reliability (the decoding code is not among the sources). *)
Inductive json :=
| JNull
| JBool (b : bool)
| JNum (z : Z)
| JStr (s : string)
| JArr (items : list json)
| JObj (fields : list (string * json)).

Inductive Priority := high | medium | low.
Inductive Status := pending | completed.

(** Modelled from the spec: the [Task] record of the data model.  Ids are
    sequence numbers given at creation; dates are calendar days counted from
    1970-01-01, so that adding a duration is integer addition. *)
Record Task := mkTask {
  id : nat;
  name : string;
  description : string;
  durationDays : Z;
  dependsOn : list nat;
  assignee : string;         (* blank until the balancer resolves it *)
  priority : Priority;
  status : Status;
  startDate : Z;
  endDate : Z
}.

(** Modelled from the spec: the [Plan] record of the data model. *)
Record Plan := mkPlan {
  projectName : string;
  planStartDate : Z;
  tasks : list Task;
  teamMembers : list string;
  totalDurationDays : Z;
  planEndDate : Z
}.

Record Message := mkMessage { role : string; content : string }.

Inductive AiOutcome :=
| AiReturned (payload : json)
| AiFailed
| AiTimedOut.

(** Modelled from the spec: what the service layer hands to the engine
    (inputs A and B of the external interface). *)
Record Request := mkRequest {
  ai : AiOutcome;
  requestedStart : option Z;     (* start date, when the caller supplies one *)
  now : Z;                       (* the default anchor *)
  roster : list string;
  requestedDays : option Z;
  transcript : list Message
}.

(** Calendar date to day number (proleptic Gregorian calendar). *)
Definition days_from_civil (y m d : Z) : Z :=
  let y' := if (m <=? 2)%Z then (y - 1)%Z else y in
  let era := (y' / 400)%Z in
  let yoe := (y' - era * 400)%Z in
  let mp := if (m <=? 2)%Z then (m + 9)%Z else (m - 3)%Z in
  let doy := ((153 * mp + 2) / 5 + d - 1)%Z in
  let doe := (yoe * 365 + yoe / 4 - yoe / 100 + doy)%Z in
  (era * 146097 + doe - 719468)%Z.

(** ** Small helpers *)

Definition memb (x : nat) (l : list nat) : bool := existsb (Nat.eqb x) l.

Definition mems (x : string) (l : list string) : bool := existsb (String.eqb x) l.

Definition is_space (c : ascii) : bool :=
  let n := nat_of_ascii c in
  Nat.eqb n 32 || Nat.eqb n 9 || Nat.eqb n 10 || Nat.eqb n 13.

Fixpoint is_blank (s : string) : bool :=
  match s with
  | EmptyString => true
  | String c s' => is_space c && is_blank s'
  end.

Fixpoint field (k : string) (fields : list (string * json)) : option json :=
  match fields with
  | [] => None
  | (k', v) :: rest => if String.eqb k' k then Some v else field k rest
  end.

Definition indexed {A} (l : list A) : list (nat * A) := combine (seq 0 (List.length l)) l.

(** ** Task Normalizer (4.1) *)

Definition default_name : string := "Untitled Task".
Definition default_duration : Z := 2.

Definition norm_name (o : list (string * json)) : string :=
  match field "name" o with
  | Some (JStr s) => if is_blank s then default_name else s
  | _ => default_name
  end.

Definition norm_description (o : list (string * json)) : string :=
  match field "description" o with
  | Some (JStr s) => s
  | _ => ""
  end.

Definition norm_duration (o : list (string * json)) : Z :=
  let raw := match field "durationDays" o with
             | Some v => Some v
             | None => field "duration" o
             end in
  match raw with
  | Some (JNum z) => if (0 <? z)%Z then z else default_duration
  | _ => default_duration
  end.

Definition norm_priority (o : list (string * json)) : Priority :=
  match field "priority" o with
  | Some (JStr s) =>
      if String.eqb s "high" then high
      else if String.eqb s "low" then low
      else medium
  | _ => medium
  end.

Definition norm_status (o : list (string * json)) : Status :=
  match field "status" o with
  | Some (JStr s) => if String.eqb s "completed" then completed else pending
  | _ => pending
  end.

Definition norm_assignee (o : list (string * json)) : string :=
  match field "assignee" o with
  | Some (JStr s) => if is_blank s then "" else s
  | _ => ""
  end.

(** A reference is kept when it names a known id, that is, a position of the
    list being normalized. *)
Definition known_ref (n : nat) (j : json) : option nat :=
  match j with
  | JNum z => if (0 <=? z)%Z && (z <? Z.of_nat n)%Z then Some (Z.to_nat z) else None
  | _ => None
  end.

Fixpoint known_refs (n : nat) (l : list json) : list nat :=
  match l with
  | [] => []
  | j :: l' =>
      match known_ref n j with
      | Some d => d :: known_refs n l'
      | None => known_refs n l'
      end
  end.

Definition norm_dependsOn (n : nat) (o : list (string * json)) : list nat :=
  match field "dependsOn" o with
  | Some (JArr l) => nodup Nat.eq_dec (known_refs n l)
  | _ => []
  end.

Definition normalize_item (n : nat) (entry : nat * json) : Task :=
  let '(i, item) := entry in
  let o := match item with JObj fields => fields | _ => [] end in
  {| id := i; name := norm_name o; description := norm_description o;
     durationDays := norm_duration o; dependsOn := norm_dependsOn n o;
     assignee := norm_assignee o; priority := norm_priority o;
     status := norm_status o; startDate := 0; endDate := 0 |}.

(** Modelled from the spec: the Task Normalizer of section 4.1 (backend code
    absent).  Every item of a sequence becomes a task, with defaults for what
    is missing or malformed; anything that is not a sequence gives no task. *)
Definition normalize (raw : json) : list Task :=
  match raw with
  | JArr items => map (normalize_item (List.length items)) (indexed items)
  | _ => []
  end.

(** ** Dependency Resolver (4.2) *)

(** Finished tasks with the prerequisites each one keeps, in finishing order:
    the "visited" marking.  The "visiting" marking is the list of tasks on the
    current traversal path. *)
Definition finished := list (nat * list nat).

Fixpoint visit_deps (rec : finished -> nat -> finished) (visiting : list nat)
         (ds : list nat) (acc : finished) (kept : list nat) : finished * list nat :=
  match ds with
  | [] => (acc, kept)
  | v :: ds' =>
      if memb v visiting
      then visit_deps rec visiting ds' acc kept            (* the edge closes a cycle *)
      else visit_deps rec visiting ds' (rec acc v) (kept ++ [v])
  end.

(** Modelled from the spec: the depth-first traversal with a
    visiting/visited marking of section 4.2 (backend code absent).  [adj]
    gives the prerequisites of each task; the traversal is at most as deep as
    there are tasks, which [fuel] bounds. *)
Fixpoint visit (adj : list (list nat)) (fuel : nat) (visiting : list nat)
         (acc : finished) (u : nat) : finished :=
  match fuel with
  | O => acc
  | S fuel' =>
      if memb u (map fst acc) then acc
      else
        let '(acc', kept) :=
          visit_deps (visit adj fuel' (u :: visiting)) (u :: visiting)
                     (nth u adj []) acc [] in
        acc' ++ [(u, kept)]
  end.

Definition traverse (adj : list (list nat)) : finished :=
  fold_left (fun acc u => visit adj (S (List.length adj)) [] acc u)
            (seq 0 (List.length adj)) [].

Definition kept_of (fin : finished) (u : nat) : list nat :=
  match find (fun e => Nat.eqb (fst e) u) fin with
  | Some e => snd e
  | None => []
  end.

Definition with_dependsOn (t : Task) (ds : list nat) : Task :=
  {| id := id t; name := name t; description := description t;
     durationDays := durationDays t; dependsOn := ds; assignee := assignee t;
     priority := priority t; status := status t;
     startDate := startDate t; endDate := endDate t |}.

(** Sever the edges that complete a cycle, keep every task. *)
Definition break_cycles (ts : list Task) : list Task :=
  let fin := traverse (map dependsOn ts) in
  map (fun t => with_dependsOn t (kept_of fin (id t))) ts.

(** The edges the traversal found to close a cycle, as (task, prerequisite). *)
Definition offending_edges (ts : list Task) : list (nat * nat) :=
  let fin := traverse (map dependsOn ts) in
  flat_map (fun t => map (fun d => (id t, d))
                         (filter (fun d => negb (memb d (kept_of fin (id t))))
                                 (dependsOn t)))
           ts.

Definition ready (placed : list nat) (t : Task) : bool :=
  forallb (fun d => memb d placed) (dependsOn t).

(** The first task, in input order, whose prerequisites are all placed. *)
Fixpoint pick_ready (placed : list nat) (remaining : list Task)
  : option (Task * list Task) :=
  match remaining with
  | [] => None
  | t :: rest =>
      if ready placed t then Some (t, rest)
      else match pick_ready placed rest with
           | Some (x, rest') => Some (x, t :: rest')
           | None => None
           end
  end.

Fixpoint order_from (fuel : nat) (placed remaining : list Task) : list Task :=
  match fuel with
  | O => placed ++ remaining
  | S fuel' =>
      match pick_ready (map id placed) remaining with
      | Some (t, rest) => order_from fuel' (placed ++ [t]) rest
      | None => placed ++ remaining
      end
  end.

Definition topological_order (ts : list Task) : list Task :=
  order_from (List.length ts) [] ts.

Inductive ResolveError :=
| CyclicDependency (offending : list (nat * nat)).

(** Modelled from the spec: the Dependency Resolver of section 4.2 (backend
    code absent), which fails with [CyclicDependency] on a cycle ... *)
Definition resolve_strict (ts : list Task) : ResolveError + list Task :=
  match offending_edges ts with
  | [] => inr (topological_order ts)
  | edges => inl (CyclicDependency edges)
  end.

(** ... and, modelled from the spec as well, the recovery inside the engine:
    the offending edges are dropped and the resolution continues. *)
Definition resolve (ts : list Task) : list Task :=
  match resolve_strict ts with
  | inr ordered => ordered
  | inl (CyclicDependency _) => topological_order (break_cycles ts)
  end.

(** ** Date Scheduler (4.3) *)

Definition end_of (scheduled : list Task) (d : nat) : option Z :=
  match find (fun t => Nat.eqb (id t) d) scheduled with
  | Some t => Some (endDate t)
  | None => None
  end.

Fixpoint ends_of (scheduled : list Task) (ds : list nat) : list Z :=
  match ds with
  | [] => []
  | d :: ds' =>
      match end_of scheduled d with
      | Some e => e :: ends_of scheduled ds'
      | None => ends_of scheduled ds'
      end
  end.

Definition start_for (projectStart : Z) (scheduled : list Task) (t : Task) : Z :=
  match ends_of scheduled (dependsOn t) with
  | [] => projectStart
  | e :: es => fold_left Z.max es e
  end.

Definition with_dates (t : Task) (s e : Z) : Task :=
  {| id := id t; name := name t; description := description t;
     durationDays := durationDays t; dependsOn := dependsOn t;
     assignee := assignee t; priority := priority t; status := status t;
     startDate := s; endDate := e |}.

(** Modelled from the spec: the Date Scheduler of section 4.3 (backend code
    absent), one forward pass over the topological order. *)
Fixpoint schedule_from (projectStart : Z) (scheduled todo : list Task) : list Task :=
  match todo with
  | [] => scheduled
  | t :: rest =>
      let s := start_for projectStart scheduled t in
      schedule_from projectStart
                    (scheduled ++ [with_dates t s (s + durationDays t)%Z]) rest
  end.

Definition schedule (projectStart : Z) (ordered : list Task) : list Task :=
  schedule_from projectStart [] ordered.

(** ** Assignment Balancer (4.4) *)

Definition clean_roster (r : list string) : list string :=
  nodup string_dec (filter (fun m => negb (is_blank m)) r).

Definition generic_member (i : nat) : string :=
  "Team Member " ++ NilZero.string_of_uint (Nat.to_uint (S i)).

Definition generic_roster (k : nat) : list string :=
  map generic_member (seq 0 k).

Definition distinct_assignees (ts : list Task) : list string :=
  nodup string_dec (filter (fun m => negb (is_blank m)) (map assignee ts)).

(** Modelled from the spec: the roster of section 4.4 (backend code absent):
    the known names, or generic ones when no roster is known. *)
Definition effective_roster (r : list string) (teamHint : nat) (ts : list Task)
  : list string :=
  match clean_roster r with
  | [] => generic_roster
            (Nat.max 1 (Nat.max teamHint (List.length (distinct_assignees ts))))
  | known => known
  end.

Definition load (ts : list Task) (m : string) : nat :=
  List.length (filter (fun t => String.eqb (assignee t) m) ts).

(** The member with the smallest load, the earliest in roster order on a tie. *)
Fixpoint least_loaded (ts : list Task) (best : string) (others : list string) : string :=
  match others with
  | [] => best
  | m :: rest =>
      if Nat.ltb (load ts m) (load ts best) then least_loaded ts m rest
      else least_loaded ts best rest
  end.

Definition with_assignee (t : Task) (m : string) : Task :=
  {| id := id t; name := name t; description := description t;
     durationDays := durationDays t; dependsOn := dependsOn t;
     assignee := m; priority := priority t; status := status t;
     startDate := startDate t; endDate := endDate t |}.

Definition choose (r : list string) (counted : list Task) (t : Task) : Task :=
  if mems (assignee t) r then t
  else match r with
       | [] => t
       | m :: rest => with_assignee t (least_loaded counted m rest)
       end.

(** Modelled from the spec: the Assignment Balancer of section 4.4 (backend
    code absent).  Loads are recomputed from the task list at every step: the
    tasks already decided and the later ones (an assignee outside the roster
    loads nobody). *)
Fixpoint balance_from (r : list string) (decided todo : list Task) : list Task :=
  match todo with
  | [] => decided
  | t :: rest =>
      balance_from r (decided ++ [choose r (decided ++ rest) t]) rest
  end.

Definition balance (r : list string) (ts : list Task) : list Task :=
  balance_from r [] ts.

(** ** Fallback Plan Generator (4.5) *)

Definition phases : list string :=
  ["Planning"; "Design"; "Development"; "Testing"; "Deployment"].

Definition default_total : Z := 30.

Definition is_digit (c : ascii) : bool :=
  let n := nat_of_ascii c in Nat.leb 48 n && Nat.leb n 57.

Definition lower (c : ascii) : ascii :=
  let n := nat_of_ascii c in
  if Nat.leb 65 n && Nat.leb n 90 then ascii_of_nat (n + 32) else c.

Definition is_letter (c : ascii) : bool :=
  let n := nat_of_ascii (lower c) in Nat.leb 97 n && Nat.leb n 122.

Inductive token :=
| TNum (z : Z)
| TWord (w : string).

Inductive scan_state :=
| Idle
| InNum (z : Z)
| InWord (w : string).

Definition flush (st : scan_state) : list token :=
  match st with
  | Idle => []
  | InNum z => [TNum z]
  | InWord w => [TWord w]
  end.

(** Maximal runs of digits and of letters (lower-cased); anything else
    separates. *)
Fixpoint tokenize (st : scan_state) (s : string) : list token :=
  match s with
  | EmptyString => flush st
  | String c s' =>
      if is_digit c then
        let d := Z.of_nat (nat_of_ascii c - 48) in
        match st with
        | InNum z => tokenize (InNum (10 * z + d)%Z) s'
        | _ => flush st ++ tokenize (InNum d) s'
        end
      else if is_letter c then
        let l := String (lower c) EmptyString in
        match st with
        | InWord w => tokenize (InWord (w ++ l)) s'
        | _ => flush st ++ tokenize (InWord l) s'
        end
      else flush st ++ tokenize Idle s'
  end.

Definition day_unit (w : string) : option Z :=
  if mems w ["day"; "days"] then Some 1%Z
  else if mems w ["week"; "weeks"] then Some 7%Z
  else if mems w ["month"; "months"] then Some 30%Z
  else None.

Definition head_unit (w : string) : bool :=
  mems w ["people"; "person"; "persons"; "member"; "members"].

Fixpoint duration_in (ts : list token) : option Z :=
  match ts with
  | TNum z :: ((TWord w :: _) as rest) =>
      match day_unit w with
      | Some u => Some (z * u)%Z
      | None => duration_in rest
      end
  | _ :: rest => duration_in rest
  | [] => None
  end.

Fixpoint team_in (ts : list token) : option Z :=
  match ts with
  | TNum z :: ((TWord w :: _) as rest) =>
      if head_unit w then Some z else team_in rest
  | _ :: rest => team_in rest
  | [] => None
  end.

Fixpoint first_hint (f : list token -> option Z) (msgs : list Message) : option Z :=
  match msgs with
  | [] => None
  | m :: rest =>
      match f (tokenize Idle (content m)) with
      | Some z => Some z
      | None => first_hint f rest
      end
  end.

(** Modelled from the spec: the defensive parsing of the duration and
    team-size hints of sections 4.5 and 6 (backend code absent): the first
    number followed by a unit word. *)
Definition duration_hint (msgs : list Message) : option Z := first_hint duration_in msgs.
Definition team_hint (msgs : list Message) : nat :=
  match first_hint team_in msgs with
  | Some z => Z.to_nat z
  | None => 0
  end.

Definition positive_or (o : option Z) (otherwise : option Z) : option Z :=
  match o with
  | Some z => if (0 <? z)%Z then Some z else otherwise
  | None => otherwise
  end.

Definition fallback_total (rq : Request) : Z :=
  match positive_or (requestedDays rq)
                    (positive_or (duration_hint (transcript rq)) None) with
  | Some z => z
  | None => default_total
  end.

Definition phase_task (count : nat) (total : Z) (entry : nat * string) : Task :=
  let '(i, nm) := entry in
  let base := (total / Z.of_nat count)%Z in
  let extra := (total mod Z.of_nat count)%Z in
  {| id := i; name := nm; description := "";
     durationDays := (base + (if (Z.of_nat i <? extra)%Z then 1 else 0))%Z;
     dependsOn := match i with O => [] | S j => [j] end;
     assignee := ""; priority := medium; status := pending;
     startDate := 0; endDate := 0 |}.

(** Modelled from the spec: the Fallback Plan Generator of section 4.5
    (backend code absent).  A chain of template phases whose durations add up
    to [total]; fewer phases when the timeline is shorter than the
    catalogue. *)
Definition fallback_tasks (total : Z) : list Task :=
  let count := Z.to_nat (Z.min (Z.of_nat (List.length phases)) (Z.max 1 total)) in
  map (phase_task count total) (indexed (firstn count phases)).

(** ** Plan Assembler (4.6) and the pipeline *)

Definition max_end (ts : list Task) : option Z :=
  match map endDate ts with
  | [] => None
  | e :: es => Some (fold_left Z.max es e)
  end.

Fixpoint first_user_line (msgs : list Message) : option string :=
  match msgs with
  | [] => None
  | m :: rest =>
      if String.eqb (role m) "user" && negb (is_blank (content m))
      then Some (content m) else first_user_line rest
  end.

Definition project_name (rq : Request) : string :=
  match first_user_line (transcript rq) with
  | Some s => s
  | None => "Project Plan"
  end.

(** Modelled from the spec: the Plan Assembler of section 4.6 (backend code
    absent); the milestones are not stored in the plan. *)
Definition assemble (nm : string) (start : Z) (ts : list Task) : Plan :=
  let total := match max_end ts with
               | Some e => (e - start)%Z
               | None => 0%Z
               end in
  {| projectName := nm; planStartDate := start; tasks := ts;
     teamMembers := nodup string_dec (map assignee ts);
     totalDurationDays := total; planEndDate := (start + total)%Z |}.

Definition raw_tasks (rq : Request) : list Task :=
  match ai rq with
  | AiReturned payload => normalize payload
  | AiFailed => []
  | AiTimedOut => []
  end.

(** Whether the request is served by the fallback generator. *)
Definition degraded (rq : Request) : bool :=
  match raw_tasks rq with [] => true | _ => false end.

Definition source_tasks (rq : Request) : list Task :=
  match raw_tasks rq with
  | [] => fallback_tasks (fallback_total rq)
  | ts => ts
  end.

Definition anchor (rq : Request) : Z :=
  match requestedStart rq with
  | Some d => d
  | None => now rq
  end.

(** Modelled from the spec: the pipeline of section 2 (backend code absent):
    normalizer, resolver, scheduler, balancer, assembler, with the fallback
    generator substituted when normalization yields no task. *)
Definition generate_plan (rq : Request) : Plan :=
  let ts := source_tasks rq in
  let ordered := resolve ts in
  let scheduled := schedule (anchor rq) ordered in
  let hint := if degraded rq then team_hint (transcript rq) else 0 in
  let r := effective_roster (roster rq) hint scheduled in
  assemble (project_name rq) (anchor rq) (balance r scheduled).

(** ** Vocabulary of the statements about the engine *)

(** What the normalizer and the fallback generator establish: ids are the
    positions, references name known ids, durations are positive. *)
Definition well_formed (ts : list Task) : Prop :=
  map id ts = seq 0 (List.length ts) /\
  (forall t d, In t ts -> In d (dependsOn t) -> d < List.length ts) /\
  (forall t, In t ts -> (0 < durationDays t)%Z).

(** [reaches adj x z]: task [x] depends on task [z] through a chain of
    prerequisites of the graph [adj] (zero or more edges). *)
Inductive reaches (adj : list (list nat)) : nat -> nat -> Prop :=
| reaches_refl x : reaches adj x x
| reaches_step x y z : In y (nth x adj []) -> reaches adj y z -> reaches adj x z.

(** The invariant of the traversal: tasks finish once, after the
    prerequisites they keep; a prerequisite is dropped only when it is on the
    traversal path, hence when it depends back on the task. *)
Inductive topo (adj : list (list nat)) : finished -> Prop :=
| topo_nil : topo adj []
| topo_snoc acc u path kept :
    topo adj acc ->
    u < List.length adj ->
    ~ In u (map fst acc) ->
    kept = filter (fun v => negb (memb v path)) (nth u adj []) ->
    incl kept (map fst acc) ->
    (forall x, In x path -> reaches adj x u) ->
    topo adj (acc ++ [(u, kept)]).

(** What one call of the traversal, started on a task that is not on the
    path, guarantees. *)
Definition visit_ok (adj : list (list nat)) (visiting : list nat)
           (rec : finished -> nat -> finished) : Prop :=
  forall acc v,
    topo adj acc -> v < List.length adj -> ~ In v visiting ->
    (forall x, In x visiting -> ~ In x (map fst acc)) ->
    (forall x, In x visiting -> reaches adj x v) ->
    topo adj (rec acc v) /\
    (exists more, rec acc v = acc ++ more) /\
    In v (map fst (rec acc v)) /\
    (forall x, In x visiting -> ~ In x (map fst (rec acc v))).

(** A list of tasks in which every task comes after its prerequisites. *)
Inductive in_order : list Task -> Prop :=
| in_order_nil : in_order []
| in_order_snoc l t :
    in_order l ->
    (forall d, In d (dependsOn t) -> In d (map id l)) ->
    ~ In (id t) (map id l) ->
    in_order (l ++ [t]).

(** What the scheduled tasks satisfy: end = start + duration; a task without
    prerequisites starts with the project; every prerequisite is a task of the
    list and has ended when the task starts; one of them ends on that day. *)
Definition dates_ok (start : Z) (l : list Task) : Prop :=
  forall t, In t l ->
    (endDate t = startDate t + durationDays t)%Z /\
    (dependsOn t = [] -> startDate t = start) /\
    (forall d, In d (dependsOn t) ->
       exists td, In td l /\ id td = d /\ (endDate td <= startDate t)%Z) /\
    (dependsOn t <> [] ->
       exists td, In td l /\ In (id td) (dependsOn t) /\ endDate td = startDate t).

(** The three-task cycle A -> B -> C -> A of the specification. *)
Definition three_cycle : json :=
  JArr [ JObj [("name", JStr "A"); ("dependsOn", JArr [JNum 1])];
         JObj [("name", JStr "B"); ("dependsOn", JArr [JNum 2])];
         JObj [("name", JStr "C"); ("dependsOn", JArr [JNum 0])] ].

(** Design (5 days), then Build (10 days), from 2024-01-01. *)
Definition design_build : Request :=
  {| ai := AiReturned
             (JArr [ JObj [("name", JStr "Design"); ("duration", JNum 5)];
                     JObj [("name", JStr "Build"); ("duration", JNum 10);
                           ("dependsOn", JArr [JNum 0])] ]);
     requestedStart := Some (days_from_civil 2024 1 1);
     now := 0; roster := []; requestedDays := None; transcript := [] |}.

End Engine.

(** ** More of the component: colours, card order, whole percentages *)
Module GanttView.

Import JsNumber Gantt.

Record ColorScheme := mkColorScheme {
  bg : string;
  text : string;
  light : string;
  border : string
}.

Definition neonColors : list ColorScheme :=
  [ mkColorScheme "bg-cyan-500" "text-cyan-600" "bg-cyan-50" "border-cyan-200";
    mkColorScheme "bg-emerald-500" "text-emerald-600" "bg-emerald-50" "border-emerald-200";
    mkColorScheme "bg-orange-500" "text-orange-600" "bg-orange-50" "border-orange-200";
    mkColorScheme "bg-purple-500" "text-purple-600" "bg-purple-50" "border-purple-200";
    mkColorScheme "bg-pink-500" "text-pink-600" "bg-pink-50" "border-pink-200";
    mkColorScheme "bg-blue-500" "text-blue-600" "bg-blue-50" "border-blue-200" ].

(** [neonColors[hash % neonColors.length]]: reading an array outside its
    bounds gives [undefined], here [None]. *)
Definition colorSchemeOf (who : string) : option ColorScheme :=
  nth_error neonColors (char_code_sum who mod List.length neonColors).

(** The characters of a string. *)
Fixpoint chars (s : string) : list ascii :=
  match s with
  | EmptyString => []
  | String c s' => c :: chars s'
  end.

(** The distinct elements of a list, in the order of their first
    occurrence. *)
Fixpoint first_seen_from (seen : list string) (l : list string) : list string :=
  match l with
  | [] => seen
  | k :: rest =>
      first_seen_from (if existsb (String.eqb k) seen then seen else seen ++ [k]) rest
  end.

Definition first_seen (l : list string) : list string := first_seen_from [] l.

Definition is_index_name (k : string) : bool :=
  match JsObject.array_index k with
  | Some _ => true
  | None => false
  end.

Definition index_of_name (k : string) : N :=
  match JsObject.array_index k with
  | Some i => i
  | None => 0
  end.

(** The sum of [f] over the tasks of an array. *)
Definition tally (f : Task -> nat) (arr : list Task) : nat := list_sum (map f arr).

(** The order in which [Object.entries] lists the array-index keys. *)
Definition by_index (a b : N * (string * list Task)) : Prop := (fst a <= fst b)%N.

(** The same object with [f] applied to every value. *)
Definition values_map {V W} (f : V -> W) (o : JsObject.t V) : JsObject.t W :=
  map (fun e => (fst e, f (snd e))) o.

Definition result_map {A B} (f : A -> B) (r : JsResult A) : JsResult B :=
  match r with
  | Ok a => Ok (f a)
  | TypeError => TypeError
  end.

(** The team card of the same member after [f] has been applied to each of
    the member's tasks. *)
Definition card_map (f : Task -> Task) (r : MemberProgress) : MemberProgress :=
  member_entry (member r, map f (member_tasks r)).

(** Whether the computed percentage is a whole number [p] between 0 and 100
    at most half a point away from the exact quotient: [p] is the exact
    quotient rounded half up, or one less when the binary64 product falls
    just below the tie. *)
Definition near (p c n : Z) : bool :=
  ((0 <=? p) && (p <=? 100) && (Z.abs (2 * (p * n - 100 * c)) <=? n))%Z.

Definition whole_as (o : number) (p c n : Z) : bool :=
  PrimFloat.eqb o (of_Z p) && negb (PrimFloat.is_nan o) && near p c n.

Definition wholeZ (c n : Z) : bool :=
  let o := percentZ c n in
  let p := ((200 * c + n) / (2 * n))%Z in
  whole_as o p c n || whole_as o (p - 1)%Z c n.

Fixpoint whole_row (fuel : nat) (c n : Z) : bool :=
  match fuel with
  | O => true
  | S f => wholeZ c n && whole_row f (c + 1)%Z n
  end.

Fixpoint whole_rows (fuel : nat) (n : Z) : bool :=
  match fuel with
  | O => true
  | S f => whole_row (Z.to_nat (n + 1)) 0 n && whole_rows f (n + 1)%Z
  end.

End GanttView.

(* ===================================================================== *)
(** * Part III — ChatPanel.jsx (and its twin ChatInterface.jsx)           *)
(* ===================================================================== *)

(** The two files define the same handler.  A run of the handler is taken as
    one step: while a request is in flight [isGenerating] is true and every
    control of the panel is disabled. *)
Module Chat.

(** JS strings are sequences of UTF-16 code units. *)
Definition jsstring := list N.

(** A literal of the source (ASCII). *)
Definition lit (s : string) : jsstring := map N_of_ascii (list_ascii_of_string s).

Definition same (a b : jsstring) : bool :=
  if list_eq_dec N.eq_dec a b then true else false.

(** The code units [String.prototype.trim] removes: WhiteSpace and
    LineTerminator. *)
Definition is_white (c : N) : bool :=
  ((9 <=? c) && (c <=? 13) || (c =? 32) || (c =? 160) || (c =? 5760) ||
   (8192 <=? c) && (c <=? 8202) || (c =? 8232) || (c =? 8233) ||
   (c =? 8239) || (c =? 8287) || (c =? 12288) || (c =? 65279))%N.

Fixpoint trim_start (s : jsstring) : jsstring :=
  match s with
  | [] => []
  | c :: rest => if is_white c then trim_start rest else s
  end.

Definition trim (s : jsstring) : jsstring := rev (trim_start (rev (trim_start s))).

(** Values decoded from a JSON body ([undefined] is what reading a missing
    property gives).  An object is given by its members in the order of the
    text. *)
Inductive value :=
| VUndefined
| VNull
| VBool (b : bool)
| VNum (x : float)
| VStr (s : jsstring)
| VArr (items : list value)
| VObj (fields : list (jsstring * value)).

Inductive JsResult (A : Type) :=
| Ok (a : A)
| Thrown.
Arguments Ok {A} a.
Arguments Thrown {A}.

Definition bind {A B} (r : JsResult A) (k : A -> JsResult B) : JsResult B :=
  match r with Ok a => k a | Thrown => Thrown end.

(** The own property [k] of a decoded object: of two members with the same
    name [JSON.parse] keeps the later one. *)
Fixpoint own (fields : list (jsstring * value)) (k : jsstring) : option value :=
  match fields with
  | [] => None
  | (k', v) :: rest =>
      match own rest k with
      | Some w => Some w
      | None => if same k' k then Some v else None
      end
  end.

(** [v.response]: no prototype defines [response], so only an object can
    have it; reading a property of [null] or [undefined] throws. *)
Definition prop (v : value) (k : jsstring) : JsResult value :=
  match v with
  | VUndefined => Thrown
  | VNull => Thrown
  | VObj fields => Ok (match own fields k with Some w => w | None => VUndefined end)
  | _ => Ok VUndefined
  end.

Definition nullish (v : value) : bool :=
  match v with
  | VUndefined => true
  | VNull => true
  | _ => false
  end.

(** What a message holds: a string of the source or of the user, or a value
    taken from a response as it came. *)
Inductive content :=
| Text (s : jsstring)
| Received (v : value).

Record Message := mkMessage { role : string; content_of : content }.

Definition greeting : Message :=
  mkMessage "assistant" (Text (lit "Hi! What project do you want to build?")).

Definition chat_error : Message :=
  mkMessage "assistant" (Text (lit "Error. Please try again.")).

(** What React accepts as the child [{msg.content}]: strings and numbers are
    text, booleans, [null] and [undefined] render nothing, an array is
    rendered item by item; a plain object is refused with an exception. *)
Fixpoint renderable (v : value) : bool :=
  match v with
  | VObj _ => false
  | VArr items => forallb renderable items
  | _ => true
  end.

Definition shows (m : Message) : bool :=
  match content_of m with
  | Text _ => true
  | Received v => renderable v
  end.

(** The state of the panel ([isGenerating] is held by [App] and handed down
    with its setter); [mounted] is false once React has removed the tree
    after an exception that nothing caught. *)
Record State := mkState {
  messages : list Message;
  input : jsstring;
  isGenerating : bool;
  mounted : bool
}.

Definition initial : State := mkState [greeting] [] false true.

Definition append (m : Message) (s : State) : State :=
  mkState (messages s ++ [m]) (input s) (isGenerating s) (mounted s).

Definition setInput (i : jsstring) (s : State) : State :=
  mkState (messages s) i (isGenerating s) (mounted s).

Definition setIsGenerating (b : bool) (s : State) : State :=
  mkState (messages s) (input s) b (mounted s).

Definition unmount (s : State) : State :=
  mkState (messages s) (input s) (isGenerating s) false.

(** [setMessages(update)] with an updater function: the call only enqueues
    it.  React runs the updater and renders the panel again after the handler
    has moved on, so an exception of the updater, or of the render of a
    message, is outside the handler's [try]; these files catch it nowhere and
    React removes the tree. *)
Definition commit (update : list Message -> JsResult (list Message)) (s : State) : State :=
  match update (messages s) with
  | Thrown => unmount s
  | Ok ms =>
      if forallb shows ms then mkState ms (input s) (isGenerating s) (mounted s)
      else unmount s
  end.

(** How the awaited [fetch] and [response.json()] end. *)
Inductive outcome :=
| Rejected                                   (* fetch rejects *)
| Answered (ok : bool) (body : option value). (* [None]: the body is not JSON *)

Record Request := mkRequest { path : string; history : list Message }.

(** [handleSend] up to the [await]: nothing at all when the input is blank
    or a request is in flight. *)
Definition handleSend_start (s : State) : option (State * Request) :=
  match trim (input s) with
  | [] => None
  | _ =>
      if isGenerating s then None
      else
        let userMessage := mkMessage "user" (Text (input s)) in
        Some (setIsGenerating true (setInput [] (append userMessage s)),
              mkRequest "/api/chat" (messages s ++ [userMessage]))
  end.

(** [prev => [...prev, { role: 'assistant', content: data.response }]]:
    [data.response] is read when the updater runs. *)
Definition reply_update (data : value) (prev : list Message)
  : JsResult (list Message) :=
  bind (prop data (lit "response"))
       (fun r => Ok (prev ++ [mkMessage "assistant" (Received r)])).

(** [prev => [...prev, { role: 'assistant', content: 'Error. Please try
    again.' }]] *)
Definition error_update (prev : list Message) : JsResult (list Message) :=
  Ok (prev ++ [chat_error]).

(** The one [setMessages] reached after the [await]: the updater of the
    [try] block when the response is ok and its body is JSON, the updater of
    [catch] when [fetch], the status test or [response.json()] threw. *)
Definition chat_update (o : outcome) : list Message -> JsResult (list Message) :=
  match o with
  | Answered true (Some data) => reply_update data
  | _ => error_update
  end.

(** After the [await]: the update of [messages], then [finally]. *)
Definition handleSend_settle (o : outcome) (s : State) : State :=
  setIsGenerating false (commit (chat_update o) s).

Definition handleSend (o : outcome) (s : State) : State :=
  match handleSend_start s with
  | None => s
  | Some (s1, _) => handleSend_settle o s1
  end.

End Chat.

(* ===================================================================== *)
(** * Facts about the Gantt chart component                               *)
(* ===================================================================== *)

Module GanttProofs.

Import JsNumber Gantt.

(** ** Strict equality of ids *)

Lemma strict_eq_iff (a b : JsId) : strict_eq a b = true <-> a = b.
Proof.
  destruct a as [x|x], b as [y|y]; simpl; split; intros H;
    try discriminate; try congruence.
  - apply Z.eqb_eq in H. now subst.
  - inversion H. apply Z.eqb_refl.
  - apply String.eqb_eq in H. now subst.
  - inversion H. apply String.eqb_refl.
Qed.

Lemma strict_eq_neq (a b : JsId) : a <> b -> strict_eq a b = false.
Proof.
  intros H. destruct (strict_eq a b) eqn:E; [|reflexivity].
  apply strict_eq_iff in E. contradiction.
Qed.

(** ** One task *)

Lemma toggleTaskStatus_map taskId ts :
  toggleTaskStatus taskId ts = map (toggle_one taskId) ts.
Proof. reflexivity. Qed.

Lemma same_except_status_refl t : same_except_status t t.
Proof. repeat split. Qed.

Lemma same_except_status_trans t1 t2 t3 :
  same_except_status t1 t2 -> same_except_status t2 t3 -> same_except_status t1 t3.
Proof.
  unfold same_except_status. intros H1 H2.
  repeat match goal with H : _ /\ _ |- _ => destruct H end.
  repeat split; congruence.
Qed.

Lemma with_status_same t s : same_except_status t (with_status t s).
Proof. repeat split. Qed.

Lemma toggle_one_same taskId t : same_except_status t (toggle_one taskId t).
Proof.
  unfold toggle_one. destruct (strict_eq (id t) taskId).
  - apply with_status_same.
  - apply same_except_status_refl.
Qed.

Lemma toggle_one_other taskId t : id t <> taskId -> toggle_one taskId t = t.
Proof. intros H. unfold toggle_one. now rewrite strict_eq_neq. Qed.

Lemma toggle_one_id taskId t : id (toggle_one taskId t) = id t.
Proof. unfold toggle_one. now destruct (strict_eq (id t) taskId). Qed.

Lemma flip_flip s : valid_status s -> flip (flip s) = s.
Proof. intros [-> | ->]; reflexivity. Qed.

Lemma flip_valid s : valid_status (flip s).
Proof. unfold flip, valid_status. destruct (String.eqb s "completed"); auto. Qed.

Lemma flip_changes s : flip s <> s.
Proof.
  unfold flip. destruct (String.eqb s "completed") eqn:E.
  - apply String.eqb_eq in E. subst. discriminate.
  - apply String.eqb_neq in E. congruence.
Qed.

Lemma toggle_one_twice taskId t :
  (id t = taskId -> valid_status (status t)) ->
  toggle_one taskId (toggle_one taskId t) = t.
Proof.
  intros Hv. unfold toggle_one.
  destruct (strict_eq (id t) taskId) eqn:E.
  - simpl. rewrite E. apply strict_eq_iff in E.
    unfold with_status. simpl. fold (flip (status t)).
    fold (flip (flip (status t))). rewrite flip_flip by auto. now destruct t.
  - now rewrite E.
Qed.

Lemma toggle_one_thrice taskId t :
  toggle_one taskId (toggle_one taskId (toggle_one taskId t)) = toggle_one taskId t.
Proof.
  apply toggle_one_twice. rewrite toggle_one_id. intros H.
  unfold toggle_one. rewrite (proj2 (strict_eq_iff _ _) H). simpl.
  apply flip_valid.
Qed.

(** ** Lists of tasks *)

Lemma toggle_length taskId ts :
  List.length (toggleTaskStatus taskId ts) = List.length ts.
Proof. apply length_map. Qed.

Lemma toggle_nth taskId ts j :
  nth_error (toggleTaskStatus taskId ts) j = option_map (toggle_one taskId) (nth_error ts j).
Proof. rewrite toggleTaskStatus_map. apply nth_error_map. Qed.

Lemma toggle_same taskId ts :
  Forall2 same_except_status ts (toggleTaskStatus taskId ts).
Proof.
  induction ts as [|t ts IH]; simpl; constructor; auto.
  apply (toggle_one_same taskId t).
Qed.

Lemma Forall2_same_trans l1 l2 l3 :
  Forall2 same_except_status l1 l2 -> Forall2 same_except_status l2 l3 ->
  Forall2 same_except_status l1 l3.
Proof.
  intros H. revert l3. induction H; intros l3 H3; inversion H3; subst; constructor.
  - eapply same_except_status_trans; eauto.
  - auto.
Qed.

Lemma Forall2_same_refl l : Forall2 same_except_status l l.
Proof. induction l; constructor; auto using same_except_status_refl. Qed.

Lemma toggle_all_same clicks ts :
  Forall2 same_except_status ts (toggle_all clicks ts).
Proof.
  revert ts. induction clicks as [|c clicks IH]; intros ts; simpl.
  - apply Forall2_same_refl.
  - eapply Forall2_same_trans; [apply (toggle_same c)|apply IH].
Qed.

Lemma iter_toggle_same taskId k ts :
  Forall2 same_except_status ts (Nat.iter k (toggleTaskStatus taskId) ts).
Proof.
  induction k as [|k IH]; simpl.
  - apply Forall2_same_refl.
  - eapply Forall2_same_trans; [apply IH|apply toggle_same].
Qed.

Lemma toggle_twice taskId ts :
  (forall t, In t ts -> id t = taskId -> valid_status (status t)) ->
  toggleTaskStatus taskId (toggleTaskStatus taskId ts) = ts.
Proof.
  intros Hv. rewrite !toggleTaskStatus_map, map_map.
  rewrite <- (map_id ts) at 2. apply map_ext_in.
  intros t Ht. apply toggle_one_twice. auto.
Qed.

Lemma toggle_thrice taskId ts :
  toggleTaskStatus taskId (toggleTaskStatus taskId (toggleTaskStatus taskId ts))
  = toggleTaskStatus taskId ts.
Proof.
  rewrite !toggleTaskStatus_map, !map_map. apply map_ext.
  intros t. apply toggle_one_thrice.
Qed.

(** With distinct ids, one position carries the id. *)
Lemma unique_position (ts : list Task) (taskId : JsId) :
  NoDup (map id ts) -> In taskId (map id ts) ->
  exists i t, nth_error ts i = Some t /\ id t = taskId /\
              forall j t', j <> i -> nth_error ts j = Some t' -> id t' <> taskId.
Proof.
  intros Hnd Hin. apply in_map_iff in Hin. destruct Hin as [t [Hid Hin]].
  apply In_nth_error in Hin. destruct Hin as [i Hi].
  exists i, t. repeat split; auto.
  intros j t' Hji Hj Heq.
  apply Hji. eapply (NoDup_nth_error (map id ts)); eauto.
  - apply nth_error_Some. rewrite nth_error_map, Hj. discriminate.
  - rewrite !nth_error_map, Hi, Hj. simpl. congruence.
Qed.

(** ** The toggle: frame, involution, absent ids *)

(** C3, as stated, fails: nothing in the component makes the ids distinct,
    and the toggle rebuilds every task whose id equals the one clicked.  With
    ids 1, 1, 2 one toggle of id 1 changes the first two tasks. *)
Lemma toggle_changes_two_tasks :
  let ts := [sample 1 "Ann" "pending"; sample 1 "Bob" "pending"; sample 2 "Cy" "pending"] in
  In (IdNum 1) (map id ts) /\
  map status ts = ["pending"; "pending"; "pending"] /\
  map status (toggleTaskStatus (IdNum 1) ts) = ["completed"; "completed"; "pending"] /\
  nth_error (toggleTaskStatus (IdNum 1) ts) 0 <> nth_error ts 0 /\
  nth_error (toggleTaskStatus (IdNum 1) ts) 1 <> nth_error ts 1.
Proof.
  simpl. split; [now left|]. split; [reflexivity|]. split; [reflexivity|].
  split; discriminate.
Qed.

(** C3, amended: toggling by an id of the list changes only the [status] of
    the tasks that carry that id.  For every list: each position holds a task
    that keeps all its properties other than [status] (dates and duration
    included) and that is exactly the task it held when its id is another one,
    the list keeps its length, and every task keeps its other properties
    along any sequence of toggles.  When the ids of the list are distinct, one
    position carries the id and every other position holds exactly the same
    task. *)
Theorem toggleTaskStatus_frame (ts : list Task) (taskId : JsId) :
  In taskId (map id ts) ->
  (forall j t, nth_error ts j = Some t ->
     exists t', nth_error (toggleTaskStatus taskId ts) j = Some t' /\
                same_except_status t t' /\ (id t <> taskId -> t' = t))
  /\ List.length (toggleTaskStatus taskId ts) = List.length ts
  /\ (forall clicks, Forall2 same_except_status ts (toggle_all clicks ts))
  /\ (NoDup (map id ts) ->
      exists i t, nth_error ts i = Some t /\ id t = taskId /\
        forall j, j <> i -> nth_error (toggleTaskStatus taskId ts) j = nth_error ts j).
Proof.
  intros Hin. split; [|split; [|split]].
  - intros j t Hj. exists (toggle_one taskId t). split; [|split].
    + rewrite toggle_nth, Hj. reflexivity.
    + apply toggle_one_same.
    + apply toggle_one_other.
  - apply toggle_length.
  - intros clicks. apply toggle_all_same.
  - intros Hnd.
    destruct (unique_position ts taskId Hnd Hin) as [i [t [Hi [Hid Huniq]]]].
    exists i, t. repeat split; auto.
    intros j Hj. rewrite toggle_nth.
    destruct (nth_error ts j) as [t'|] eqn:E; simpl; [|reflexivity].
    rewrite toggle_one_other; eauto.
Qed.

Lemma toggleTaskStatus_frame_witness :
  let ts := [sample 1 "Ann" "pending"; sample 2 "Bob" "completed"] in
  (forall j t, nth_error ts j = Some t ->
     exists t', nth_error (toggleTaskStatus (IdNum 2) ts) j = Some t' /\
                same_except_status t t' /\ (id t <> IdNum 2 -> t' = t))
  /\ List.length (toggleTaskStatus (IdNum 2) ts) = List.length ts
  /\ (forall clicks, Forall2 same_except_status ts (toggle_all clicks ts))
  /\ (NoDup (map id ts) ->
      exists i t, nth_error ts i = Some t /\ id t = IdNum 2 /\
        forall j, j <> i -> nth_error (toggleTaskStatus (IdNum 2) ts) j = nth_error ts j).
Proof.
  apply (toggleTaskStatus_frame
           [sample 1 "Ann" "pending"; sample 2 "Bob" "completed"] (IdNum 2)).
  simpl. right. left. reflexivity.
Defined.

(** C9: toggling an id that no task of the list carries returns the list
    unchanged; the updater is a total function, nothing is raised. *)
Theorem toggleTaskStatus_unknown_id (ts : list Task) (taskId : JsId) :
  ~ In taskId (map id ts) -> toggleTaskStatus taskId ts = ts.
Proof.
  induction ts as [|t ts IH]; simpl; intros Habsent; [reflexivity|].
  assert (Hne : id t <> taskId) by (intros E; apply Habsent; now left).
  rewrite (strict_eq_neq _ _ Hne). f_equal.
  apply IH. intros Hin. apply Habsent. now right.
Qed.

Lemma toggleTaskStatus_unknown_id_witness :
  toggleTaskStatus (IdStr "2") [sample 1 "Ann" "pending"; sample 2 "Bob" "completed"]
  = [sample 1 "Ann" "pending"; sample 2 "Bob" "completed"].
Proof.
  apply (toggleTaskStatus_unknown_id
           [sample 1 "Ann" "pending"; sample 2 "Bob" "completed"] (IdStr "2")).
  simpl. intros [H|[H|[]]]; discriminate H.
Defined.

(** C6, as stated, fails: the toggle compares the status with ['completed']
    only, so a task whose status is anything else goes to [completed] and
    then to [pending], not back to where it started. *)
Lemma toggle_twice_leaves_pending :
  let ts := [sample 1 "Ann" "in_progress"] in
  In (IdNum 1) (map id ts) /\
  map status (Nat.iter 1 (toggleTaskStatus (IdNum 1)) ts) = ["completed"] /\
  map status (Nat.iter 2 (toggleTaskStatus (IdNum 1)) ts) = ["pending"] /\
  map status (Nat.iter 2 (toggleTaskStatus (IdNum 1)) ts) <> map status ts.
Proof.
  simpl. split; [now left|]. split; [reflexivity|]. split; [reflexivity|].
  discriminate.
Qed.

(** C6, amended: when every task carrying the id has one of the two statuses
    of the data model, an even number of toggles of that id gives back the
    initial list, every status included.  Whatever the statuses, an odd number
    of toggles gives the list of one toggle and an even number from two on the
    list of two toggles (the toggle is an involution from the first toggle
    on), and after any number of toggles every task keeps its dates and its
    other properties. *)
Theorem toggle_even_restores (ts : list Task) (X : JsId) (n : nat) :
  In X (map id ts) ->
  ((forall t, In t ts -> id t = X -> valid_status (status t)) ->
   Nat.iter (2 * n) (toggleTaskStatus X) ts = ts /\
   map status (Nat.iter (2 * n) (toggleTaskStatus X) ts) = map status ts) /\
  Nat.iter (2 * n + 1) (toggleTaskStatus X) ts = toggleTaskStatus X ts /\
  Nat.iter (2 * n + 2) (toggleTaskStatus X) ts
    = toggleTaskStatus X (toggleTaskStatus X ts) /\
  (forall k, Forall2 same_except_status ts (Nat.iter k (toggleTaskStatus X) ts)).
Proof.
  intros _.
  assert (Odd : Nat.iter (2 * n + 1) (toggleTaskStatus X) ts = toggleTaskStatus X ts).
  { induction n as [|n IH]; [reflexivity|].
    replace (2 * S n + 1) with (S (S (2 * n + 1))) by lia.
    cbn [Nat.iter nat_rect]. unfold Nat.iter in IH. rewrite IH.
    apply toggle_thrice. }
  split; [|split; [|split]].
  - intros Hv.
    assert (E : Nat.iter (2 * n) (toggleTaskStatus X) ts = ts).
    { clear Odd. induction n as [|n IH]; [reflexivity|].
      replace (2 * S n) with (S (S (2 * n))) by lia. simpl Nat.iter.
      simpl in IH. rewrite IH. now apply toggle_twice. }
    split; [exact E|now rewrite E].
  - exact Odd.
  - replace (2 * n + 2) with (S (2 * n + 1)) by lia.
    cbn [Nat.iter nat_rect]. unfold Nat.iter in Odd. now rewrite Odd.
  - intros k. apply iter_toggle_same.
Qed.

Lemma toggle_even_restores_witness :
  let ts := [sample 1 "Ann" "pending"; sample 2 "Bob" "completed"] in
  ((forall t, In t ts -> id t = IdNum 1 -> valid_status (status t)) ->
   Nat.iter (2 * 2) (toggleTaskStatus (IdNum 1)) ts = ts /\
   map status (Nat.iter (2 * 2) (toggleTaskStatus (IdNum 1)) ts) = map status ts) /\
  Nat.iter (2 * 2 + 1) (toggleTaskStatus (IdNum 1)) ts = toggleTaskStatus (IdNum 1) ts /\
  Nat.iter (2 * 2 + 2) (toggleTaskStatus (IdNum 1)) ts
    = toggleTaskStatus (IdNum 1) (toggleTaskStatus (IdNum 1) ts) /\
  (forall k, Forall2 same_except_status ts (Nat.iter k (toggleTaskStatus (IdNum 1)) ts)).
Proof.
  apply (toggle_even_restores
           [sample 1 "Ann" "pending"; sample 2 "Bob" "completed"] (IdNum 1) 2).
  simpl. left. reflexivity.
Defined.

(** C5, as stated, fails: the toggle has no direction, a second toggle of the
    same task undoes the first instead of leaving its result. *)
Lemma toggle_twice_is_not_once :
  let ts := [sample 1 "Ann" "pending"] in
  In (IdNum 1) (map id ts) /\
  map status (toggleTaskStatus (IdNum 1) ts) = ["completed"] /\
  map status (toggleTaskStatus (IdNum 1) (toggleTaskStatus (IdNum 1) ts)) = ["pending"] /\
  toggleTaskStatus (IdNum 1) (toggleTaskStatus (IdNum 1) ts)
    <> toggleTaskStatus (IdNum 1) ts.
Proof.
  simpl. repeat split; auto. discriminate.
Qed.

(** C5, amended: each call flips the targeted task, so the status after two
    toggles always differs from the status after one (and is the initial one
    when that was pending or completed), while three toggles give the same
    list as one; in all of this every task keeps its dates and its other
    properties, and the list its length (the aggregates are recomputed from
    the statuses alone). *)
Theorem toggle_flips (ts : list Task) (taskId : JsId) :
  In taskId (map id ts) ->
  toggleTaskStatus taskId (toggleTaskStatus taskId (toggleTaskStatus taskId ts))
    = toggleTaskStatus taskId ts
  /\ (forall j t, nth_error ts j = Some t -> id t = taskId ->
        exists t1 t2,
          nth_error (toggleTaskStatus taskId ts) j = Some t1 /\
          nth_error (toggleTaskStatus taskId (toggleTaskStatus taskId ts)) j = Some t2 /\
          status t1 = flip (status t) /\ status t2 <> status t1 /\
          (valid_status (status t) -> status t2 = status t))
  /\ Forall2 same_except_status ts (toggleTaskStatus taskId (toggleTaskStatus taskId ts))
  /\ List.length (toggleTaskStatus taskId (toggleTaskStatus taskId ts)) = List.length ts.
Proof.
  intros _. split; [|split; [|split]].
  - apply toggle_thrice.
  - intros j t Hj Hid.
    exists (toggle_one taskId t), (toggle_one taskId (toggle_one taskId t)).
    rewrite !toggle_nth, Hj. simpl.
    assert (E : strict_eq (id t) taskId = true) by now apply strict_eq_iff.
    unfold toggle_one. rewrite E. simpl. rewrite E. simpl.
    fold (flip (status t)). fold (flip (flip (status t))).
    split; [reflexivity|]. split; [reflexivity|]. split; [reflexivity|]. split.
    + apply flip_changes.
    + apply flip_flip.
  - eapply Forall2_same_trans; apply toggle_same.
  - now rewrite !toggle_length.
Qed.

Lemma toggle_flips_witness :
  let ts := [sample 1 "Ann" "pending"; sample 2 "Bob" "completed"] in
  toggleTaskStatus (IdNum 1) (toggleTaskStatus (IdNum 1) (toggleTaskStatus (IdNum 1) ts))
    = toggleTaskStatus (IdNum 1) ts
  /\ (forall j t, nth_error ts j = Some t -> id t = IdNum 1 ->
        exists t1 t2,
          nth_error (toggleTaskStatus (IdNum 1) ts) j = Some t1 /\
          nth_error (toggleTaskStatus (IdNum 1) (toggleTaskStatus (IdNum 1) ts)) j = Some t2 /\
          status t1 = flip (status t) /\ status t2 <> status t1 /\
          (valid_status (status t) -> status t2 = status t))
  /\ Forall2 same_except_status ts
       (toggleTaskStatus (IdNum 1) (toggleTaskStatus (IdNum 1) ts))
  /\ List.length (toggleTaskStatus (IdNum 1) (toggleTaskStatus (IdNum 1) ts))
     = List.length ts.
Proof.
  apply (toggle_flips
           [sample 1 "Ann" "pending"; sample 2 "Bob" "completed"] (IdNum 1)).
  simpl. left. reflexivity.
Defined.

(** ** Progress and milestones *)

Lemma percent_percentZ (c n : nat) : percent c n = percentZ (Z.of_nat c) (Z.of_nat n).
Proof. reflexivity. Qed.

Lemma agree_row_sound (fuel : nat) :
  forall c0 n, agree_row fuel c0 n = true ->
  forall c, (c0 <= c < c0 + Z.of_nat fuel)%Z -> agreeZ c n = true.
Proof.
  induction fuel as [|fuel IH]; intros c0 n H c Hc; [lia|].
  simpl in H. apply andb_true_iff in H. destruct H as [H0 Hrest].
  destruct (Z.eq_dec c c0) as [->|Hne]; [exact H0|].
  apply (IH (c0 + 1)%Z n Hrest). lia.
Qed.

Lemma agree_rows_sound (fuel : nat) :
  forall n0, agree_rows fuel n0 = true -> (0 <= n0)%Z ->
  forall n c, (n0 <= n < n0 + Z.of_nat fuel)%Z -> (0 <= c <= n)%Z ->
              agreeZ c n = true.
Proof.
  induction fuel as [|fuel IH]; intros n0 H Hn0 n c Hn Hc; [lia|].
  simpl in H. apply andb_true_iff in H. destruct H as [Hrow Hrest].
  destruct (Z.eq_dec n n0) as [->|Hne].
  - apply (agree_row_sound _ _ _ Hrow). lia.
  - apply (IH (n0 + 1)%Z Hrest); lia.
Qed.

Lemma flags_checked : agree_rows checked_size 1 = true.
Proof. vm_compute. reflexivity. Qed.

Lemma flags_agree (c n : nat) :
  0 < n <= checked_size -> c <= n ->
  agreeZ (Z.of_nat c) (Z.of_nat n) = true.
Proof.
  intros Hn Hc.
  apply (agree_rows_sound checked_size 1 flags_checked); lia.
Qed.

Lemma completedTasks_le (ts : list Task) : completedTasks ts <= List.length ts.
Proof. apply filter_length_le. Qed.

Lemma completedTasks_statuses (ts : list Task) :
  completedTasks ts
  = List.length (filter (fun s => String.eqb s "completed") (map status ts)).
Proof.
  unfold completedTasks. induction ts as [|t ts IH]; simpl; [reflexivity|].
  unfold is_completed at 1. destruct (String.eqb (status t) "completed"); simpl; congruence.
Qed.

Lemma milestones_statuses (ts ts' : list Task) :
  map status ts' = map status ts -> milestones ts' = milestones ts.
Proof.
  intros H. unfold milestones, overallProgress.
  rewrite !completedTasks_statuses, H.
  replace (List.length ts') with (List.length ts); [reflexivity|].
  rewrite <- (length_map status ts), <- (length_map status ts'). now rewrite H.
Qed.

(** C8: with no task the percentage is [Math.round(0 / 0 * 100)], which is
    NaN; every comparison of NaN with a threshold is false, so only the
    constant "Project Start" milestone is marked. *)
Theorem milestones_without_tasks :
  completedTasks [] = 0 /\
  overallProgress [] = round (PrimFloat.mul (PrimFloat.div (of_nat 0) (of_nat 0)) 100%float) /\
  PrimFloat.is_nan (PrimFloat.div (of_nat 0) (of_nat 0)) = true /\
  PrimFloat.is_nan (overallProgress []) = true /\
  map (fun m => (m_name m, percentage m, completed m)) (milestones []) =
    [ ("Project Start", 0%Z, true); ("Planning Phase", 25%Z, false);
      ("Development Phase", 50%Z, false); ("Testing Phase", 75%Z, false);
      ("Project Complete", 100%Z, false) ].
Proof.
  repeat split; vm_compute; reflexivity.
Qed.

(** C4, as stated, fails: with 13 tasks completed out of 53 the proportion is
    below 25 percent (13 * 100 < 25 * 53), yet the percentage rounds to 25 and
    the 25-percent milestone is marked. *)
Lemma milestone_marked_below_threshold :
  completedTasks thirteen_of_53 = 13 /\
  List.length thirteen_of_53 = 53 /\
  (100 * 13 < 25 * 53)%Z /\
  overallProgress thirteen_of_53 = 25%float /\
  map (fun m => (percentage m, completed m)) (milestones thirteen_of_53) =
    [ (0%Z, true); (25%Z, true); (50%Z, false); (75%Z, false); (100%Z, false) ].
Proof.
  repeat split; vm_compute; reflexivity.
Qed.

(** C4, amended: the five milestones, at 0/25/50/75/100 percent, are
    computed from the task statuses alone (two lists with the same statuses
    give the same milestones, nothing is stored); the first is always marked
    and each of the others exactly when [overallProgress], the completion
    percentage rounded by [Math.round], is at least its threshold.  For
    every list of 1 to [checked_size] (1000) tasks, [c] of them completed out
    of [n], that is exactly when [200 c >= (2 p - 1) n]: the binary64
    arithmetic is compared with the integers exhaustively on that range. *)
Theorem milestones_rounded (ts : list Task) :
  map percentage (milestones ts) = [0; 25; 50; 75; 100]%Z /\
  (forall ts', map status ts' = map status ts -> milestones ts' = milestones ts) /\
  (forall m, In m (milestones ts) ->
     completed m = if (percentage m =? 0)%Z then true
                   else ge (overallProgress ts) (JsNumber.of_Z (percentage m))) /\
  (ts <> [] -> List.length ts <= checked_size ->
   forall m, In m (milestones ts) ->
     completed m = reached (percentage m)
                     (Z.of_nat (completedTasks ts)) (Z.of_nat (List.length ts))).
Proof.
  split; [reflexivity|]. split; [|split].
  - intros ts'. apply milestones_statuses.
  - intros m Hm. unfold milestones in Hm. simpl in Hm.
    destruct Hm as [<-|[<-|[<-|[<-|[<-|[]]]]]]; reflexivity.
  - intros Hne Hlen.
    assert (Hpos : 0 < List.length ts) by (destruct ts; simpl; [congruence|lia]).
    pose proof (flags_agree (completedTasks ts) (List.length ts)
                  (conj Hpos Hlen) (completedTasks_le ts)) as H.
    unfold agreeZ in H. rewrite <- percent_percentZ in H.
    fold (overallProgress ts) in H.
    apply andb_true_iff in H. destruct H as [H H100].
    apply andb_true_iff in H. destruct H as [H H75].
    apply andb_true_iff in H. destruct H as [H25 H50].
    apply Bool.eqb_prop in H25, H50, H75, H100.
    intros m Hm. unfold milestones in Hm. simpl in Hm.
    destruct Hm as [<-|[<-|[<-|[<-|[<-|[]]]]]]; simpl; auto.
    unfold reached. symmetry. apply Z.leb_le. lia.
Qed.

Lemma milestones_rounded_witness :
  thirteen_of_53 <> [] /\
  List.length thirteen_of_53 <= checked_size /\
  (forall m, In m (milestones thirteen_of_53) ->
     completed m = reached (percentage m)
                     (Z.of_nat (completedTasks thirteen_of_53))
                     (Z.of_nat (List.length thirteen_of_53))).
Proof.
  split; [discriminate|]. split; [vm_compute; repeat constructor|].
  apply (proj2 (proj2 (proj2 (milestones_rounded thirteen_of_53)))).
  - discriminate.
  - vm_compute. repeat constructor.
Defined.

(** ** Grouping by assignee *)

Section ObjectFacts.
Context {V : Type}.
Implicit Types (o : JsObject.t V) (k : string) (v : V).

Lemma own_set o k v k' :
  JsObject.own (JsObject.set o k v) k'
  = if String.eqb k k' then Some v else JsObject.own o k'.
Proof.
  induction o as [|[k0 v0] o IH]; simpl.
  - reflexivity.
  - destruct (String.eqb k0 k) eqn:E0; simpl.
    + apply String.eqb_eq in E0. subst k0.
      destruct (String.eqb k k'); reflexivity.
    + rewrite IH. destruct (String.eqb k k') eqn:E; [|reflexivity].
      apply String.eqb_eq in E. subst k'. now rewrite E0.
Qed.

Lemma set_set o k v v' :
  JsObject.set (JsObject.set o k v) k v' = JsObject.set o k v'.
Proof.
  induction o as [|[k0 v0] o IH]; simpl.
  - now rewrite String.eqb_refl.
  - destruct (String.eqb k0 k) eqn:E0; simpl; rewrite E0; [reflexivity|].
    now rewrite IH.
Qed.

Lemma own_In o k v : JsObject.own o k = Some v -> In (k, v) o.
Proof.
  induction o as [|[k0 v0] o IH]; simpl; [discriminate|].
  destruct (String.eqb k0 k) eqn:E.
  - apply String.eqb_eq in E. intros [= <-]. subst. now left.
  - intros H. right. auto.
Qed.

Lemma own_None o k : JsObject.own o k = None -> ~ In k (map fst o).
Proof.
  induction o as [|[k0 v0] o IH]; simpl; [tauto|].
  destruct (String.eqb k0 k) eqn:E; [discriminate|].
  apply String.eqb_neq in E. intros H [H0|H0]; [congruence|]. now apply IH.
Qed.

Lemma In_own o k v : NoDup (map fst o) -> In (k, v) o -> JsObject.own o k = Some v.
Proof.
  induction o as [|[k0 v0] o IH]; simpl; [tauto|].
  intros Hnd [H|H].
  - inversion H. subst. now rewrite String.eqb_refl.
  - inversion Hnd as [|? ? Hnotin Hnd']. subst.
    destruct (String.eqb k0 k) eqn:E.
    + apply String.eqb_eq in E. subst. exfalso. apply Hnotin.
      apply in_map_iff. now exists (k, v).
    + auto.
Qed.

Lemma keys_set o k v :
  map fst (JsObject.set o k v)
  = match JsObject.own o k with
    | Some _ => map fst o
    | None => map fst o ++ [k]
    end.
Proof.
  induction o as [|[k0 v0] o IH]; simpl; [reflexivity|].
  destruct (String.eqb k0 k) eqn:E; simpl; [reflexivity|].
  rewrite IH. now destruct (JsObject.own o k).
Qed.

Lemma NoDup_set o k v : NoDup (map fst o) -> NoDup (map fst (JsObject.set o k v)).
Proof.
  intros H. rewrite keys_set. destruct (JsObject.own o k) eqn:E; [exact H|].
  apply NoDup_app; [exact H|repeat constructor; simpl; tauto|].
  intros x Hx [<-|[]]. revert Hx. now apply own_None.
Qed.

Lemma weight_set (size : V -> nat) o k v :
  JsObject.weight size (JsObject.set o k v) + match JsObject.own o k with
                                     | Some old => size old
                                     | None => 0
                                     end
  = JsObject.weight size o + size v.
Proof.
  unfold JsObject.weight. induction o as [|[k0 v0] o IH]; simpl; [lia|].
  destruct (String.eqb k0 k) eqn:E; simpl; lia.
Qed.

Lemma weight_perm (size : V -> nat) o o' :
  Permutation o o' -> JsObject.weight size o = JsObject.weight size o'.
Proof.
  unfold JsObject.weight. induction 1; simpl; lia.
Qed.

Lemma insert_by_index_perm i (e : string * V) l :
  Permutation (JsObject.insert_by_index i e l) ((i, e) :: l).
Proof.
  induction l as [|[j e'] l IH]; simpl; [reflexivity|].
  destruct (i <=? j)%N; [reflexivity|].
  rewrite IH. apply perm_swap.
Qed.

Lemma entries_perm o : Permutation (JsObject.entries o) o.
Proof.
  unfold JsObject.entries, JsObject.named_entries.
  induction o as [|[k v] o IH]; simpl; [constructor|].
  destruct (JsObject.array_index k) as [i|]; simpl.
  - rewrite insert_by_index_perm. simpl. now constructor.
  - apply Permutation_sym. apply Permutation_cons_app. now apply Permutation_sym.
Qed.

End ObjectFacts.

Lemma group_step_plain o t :
  JsObject.inherited (assignee t) = false ->
  group_step o t
  = Ok (JsObject.set o (assignee t)
          (match JsObject.own o (assignee t) with
           | Some arr => arr ++ [t]
           | None => [t]
           end)).
Proof.
  intros Hk. unfold group_step, JsObject.get.
  destruct (JsObject.own o (assignee t)) as [arr|] eqn:E.
  - cbn [JsObject.falsy]. now rewrite E.
  - rewrite Hk. cbn [JsObject.falsy]. rewrite own_set, String.eqb_refl.
    now rewrite set_set.
Qed.

Lemma group_step_inherited o t :
  JsObject.inherited (assignee t) = true ->
  JsObject.own o (assignee t) = None ->
  group_step o t = TypeError.
Proof.
  intros Hk Ho. unfold group_step, JsObject.get. rewrite Ho, Hk.
  cbn [JsObject.falsy]. now rewrite Ho.
Qed.

Lemma pick_snoc k pre t :
  pick k (pre ++ [t])
  = if String.eqb (assignee t) k
    then Some (match pick k pre with Some arr => arr ++ [t] | None => [t] end)
    else pick k pre.
Proof.
  unfold pick. rewrite filter_app. simpl.
  destruct (String.eqb (assignee t) k).
  - destruct (filter (fun t0 => String.eqb (assignee t0) k) pre); reflexivity.
  - now rewrite app_nil_r.
Qed.

Lemma grouped_step o pre t :
  grouped o pre ->
  grouped (JsObject.set o (assignee t)
             (match JsObject.own o (assignee t) with
              | Some arr => arr ++ [t]
              | None => [t]
              end))
          (pre ++ [t]).
Proof.
  intros [Hk Ho Hw]. constructor.
  - now apply NoDup_set.
  - intros k. rewrite own_set, pick_snoc.
    destruct (String.eqb (assignee t) k) eqn:E; [|apply Ho].
    apply String.eqb_eq in E. subst k. now rewrite Ho.
  - pose proof (weight_set (@List.length Task) o (assignee t)
                  (match JsObject.own o (assignee t) with
                   | Some arr => arr ++ [t]
                   | None => [t]
                   end)) as H.
    rewrite length_app. simpl.
    destruct (JsObject.own o (assignee t)); [rewrite length_app in H|]; simpl in H; lia.
Qed.

Lemma group_from_plain ts :
  forall o pre,
    (forall t, In t ts -> JsObject.inherited (assignee t) = false) ->
    grouped o pre ->
    exists o', group_from o ts = Ok o' /\ grouped o' (pre ++ ts).
Proof.
  induction ts as [|t ts IH]; intros o pre Hplain Hg; simpl.
  - exists o. now rewrite app_nil_r.
  - rewrite group_step_plain by (apply Hplain; now left). simpl.
    destruct (IH _ (pre ++ [t]) (fun x Hx => Hplain x (or_intror Hx))
                 (grouped_step o pre t Hg)) as [o' [Ho' Hg']].
    exists o'. split; [exact Ho'|]. now rewrite <- app_assoc in Hg'.
Qed.

Lemma group_from_inherited ts :
  forall o,
    (forall k, JsObject.inherited k = true -> JsObject.own o k = None) ->
    (exists t, In t ts /\ JsObject.inherited (assignee t) = true) ->
    group_from o ts = TypeError.
Proof.
  induction ts as [|t ts IH]; intros o Ho [x [Hin Hx]]; [destruct Hin|].
  simpl. destruct (JsObject.inherited (assignee t)) eqn:E.
  - rewrite group_step_inherited; auto.
  - rewrite group_step_plain by exact E. simpl. apply IH.
    + intros k Hk. rewrite own_set.
      destruct (String.eqb (assignee t) k) eqn:Ek; [|auto].
      apply String.eqb_eq in Ek. congruence.
    + destruct Hin as [->|Hin]; [congruence|]. now exists x.
Qed.

(** On task lists whose assignees are not names inherited from
    [Object.prototype], the team view is a partition of the tasks by
    assignee. *)
Lemma teamProgress_partition (ts : list Task) :
  (forall t, In t ts -> JsObject.inherited (assignee t) = false) ->
  exists rows,
    teamProgress ts = Ok rows /\
    NoDup (map member rows) /\
    (forall r, In r rows ->
       member_tasks r = filter (fun t => String.eqb (assignee t) (member r)) ts /\
       total r = List.length (member_tasks r) /\ 1 <= total r) /\
    (forall t, In t ts -> exists r, In r rows /\ member r = assignee t) /\
    list_sum (map total rows) = List.length ts.
Proof.
  intros Hplain.
  destruct (group_from_plain ts [] [] Hplain) as [o [Ho [Hk Hown Hw]]].
  { constructor; simpl; [constructor|reflexivity|reflexivity]. }
  simpl in Hown, Hw.
  exists (map member_entry (JsObject.entries o)).
  pose proof (entries_perm o) as Hperm.
  split; [unfold teamProgress, tasksByMember; rewrite Ho; reflexivity|].
  assert (Hmem : map member (map member_entry (JsObject.entries o))
                 = map fst (JsObject.entries o)).
  { rewrite map_map. apply map_ext. now intros [k arr]. }
  assert (Hrow : forall k arr, In (k, arr) (JsObject.entries o) ->
                 arr = filter (fun t => String.eqb (assignee t) k) ts /\ arr <> []).
  { intros k arr Hin. apply (Permutation_in _ Hperm) in Hin.
    apply (In_own o k arr Hk) in Hin. rewrite Hown in Hin. unfold pick in Hin.
    destruct (filter (fun t => String.eqb (assignee t) k) ts) eqn:E; [discriminate|].
    inversion Hin. split; [reflexivity|discriminate]. }
  split; [|split; [|split]].
  - rewrite Hmem. eapply Permutation_NoDup; [|exact Hk].
    apply Permutation_sym. now apply Permutation_map.
  - intros r Hr. apply in_map_iff in Hr. destruct Hr as [[k arr] [<- Hin]].
    simpl. destruct (Hrow k arr Hin) as [Harr Hne]. split; [exact Harr|].
    split; [reflexivity|]. destruct arr; [congruence|simpl; lia].
  - intros t Ht.
    assert (Hsome : exists arr, JsObject.own o (assignee t) = Some arr).
    { rewrite Hown. unfold pick.
      destruct (filter (fun t0 => String.eqb (assignee t0) (assignee t)) ts) eqn:E.
      - exfalso. assert (Hin : In t (filter (fun t0 => String.eqb (assignee t0) (assignee t)) ts)).
        { apply filter_In. split; [exact Ht|apply String.eqb_refl]. }
        rewrite E in Hin. destruct Hin.
      - eauto. }
    destruct Hsome as [arr Harr]. apply own_In in Harr.
    apply (Permutation_in _ (Permutation_sym Hperm)) in Harr.
    exists (member_entry (assignee t, arr)). split; [|reflexivity].
    apply in_map_iff. now exists (assignee t, arr).
  - rewrite <- Hw. rewrite <- (weight_perm (@List.length Task) _ _ Hperm).
    unfold JsObject.weight. rewrite map_map. f_equal. apply map_ext. now intros [k arr].
Qed.

(** A task whose assignee is an inherited name stops the render. *)
Lemma teamProgress_inherited (ts : list Task) :
  (exists t, In t ts /\ JsObject.inherited (assignee t) = true) ->
  teamProgress ts = TypeError.
Proof.
  intros H. unfold teamProgress, tasksByMember.
  rewrite group_from_inherited; auto.
Qed.

(** C10: for a task assigned to "constructor", the lookup
    [tasksByMember["constructor"]] finds the function inherited from
    [Object.prototype]; it is truthy, so no array is created, and the call of
    its [push] raises a TypeError: the task is counted under no member and the
    view is not produced. *)
Theorem teamProgress_constructor :
  JsObject.get (V := list Task) [] "constructor" = JsObject.Inherited /\
  tasksByMember [sample 1 "constructor" "pending"] = TypeError /\
  teamProgress [sample 1 "constructor" "pending"] = TypeError /\
  teamProgress [sample 1 "Ann" "pending"; sample 2 "constructor" "pending";
                sample 3 "Ann" "completed"] = TypeError.
Proof.
  repeat split; reflexivity.
Qed.

End GanttProofs.

(* ===================================================================== *)
(** * Facts about the engine                                              *)
(* ===================================================================== *)

Module EngineProofs.

Import Engine.

#[local] Open Scope nat_scope.

(** ** Membership tests *)

Lemma memb_In x l : memb x l = true <-> In x l.
Proof.
  unfold memb. rewrite existsb_exists. split.
  - intros [y [Hy E]]. apply Nat.eqb_eq in E. now subst.
  - intros H. exists x. split; [exact H|apply Nat.eqb_refl].
Qed.

Lemma memb_not_In x l : memb x l = false <-> ~ In x l.
Proof.
  rewrite <- memb_In. destruct (memb x l); split; congruence.
Qed.

Lemma mems_In x l : mems x l = true <-> In x l.
Proof.
  unfold mems. rewrite existsb_exists. split.
  - intros [y [Hy E]]. apply String.eqb_eq in E. now subst.
  - intros H. exists x. split; [exact H|apply String.eqb_refl].
Qed.

(** ** The traversal *)

Section Traversal.

Variable adj : list (list nat).
Hypothesis adj_ok : forall u d, In d (nth u adj []) -> d < List.length adj.

Lemma reaches_snoc x u v : reaches adj x u -> In v (nth u adj []) -> reaches adj x v.
Proof.
  induction 1 as [x|x y z Hxy Hyz IH]; intros Hv.
  - eapply reaches_step; [exact Hv|apply reaches_refl].
  - eapply reaches_step; [exact Hxy|auto].
Qed.

Lemma topo_NoDup acc : topo adj acc -> NoDup (map fst acc).
Proof.
  induction 1 as [|acc u path kept Hacc IH Hu Hfresh Hkept Hincl Hcyc].
  - constructor.
  - rewrite map_app. simpl. apply NoDup_app; [exact IH|repeat constructor; simpl; tauto|].
    intros x Hx [<-|[]]. contradiction.
Qed.

Lemma visit_deps_ok (visiting : list nat) (rec : finished -> nat -> finished) (u : nat) :
  visit_ok adj visiting rec ->
  (forall x, In x visiting -> reaches adj x u) ->
  forall ds acc kept,
    (forall d, In d ds -> In d (nth u adj [])) ->
    topo adj acc ->
    (forall x, In x visiting -> ~ In x (map fst acc)) ->
    incl kept (map fst acc) ->
    topo adj (fst (visit_deps rec visiting ds acc kept)) /\
    (exists more, fst (visit_deps rec visiting ds acc kept) = acc ++ more) /\
    (forall x, In x visiting ->
               ~ In x (map fst (fst (visit_deps rec visiting ds acc kept)))) /\
    incl (snd (visit_deps rec visiting ds acc kept))
         (map fst (fst (visit_deps rec visiting ds acc kept))) /\
    snd (visit_deps rec visiting ds acc kept)
    = kept ++ filter (fun v => negb (memb v visiting)) ds.
Proof.
  intros Hrec Hpath. induction ds as [|v ds IH]; intros acc kept Hds Hacc Hfree Hkept; simpl.
  - repeat split; auto.
    + exists []. now rewrite app_nil_r.
    + now rewrite app_nil_r.
  - destruct (memb v visiting) eqn:E; simpl.
    + apply IH; auto. intros d Hd. apply Hds. now right.
    + apply memb_not_In in E.
      assert (Hv : In v (nth u adj [])) by (apply Hds; now left).
      destruct (Hrec acc v Hacc (adj_ok u v Hv) E Hfree
                     (fun x Hx => reaches_snoc x u v (Hpath x Hx) Hv))
        as [Ht [[more Hmore] [Hin Hfree']]].
      destruct (IH (rec acc v) (kept ++ [v])) as [H1 [[more' H2] [H3 [H4 H5]]]]; auto.
      * intros d Hd. apply Hds. now right.
      * intros x Hx. apply in_app_iff in Hx. destruct Hx as [Hx|[<-|[]]]; [|exact Hin].
        rewrite Hmore, map_app, in_app_iff. left. now apply Hkept.
      * repeat split; auto.
        -- exists (more ++ more'). rewrite H2, Hmore. now rewrite app_assoc.
        -- rewrite H5. now rewrite <- app_assoc.
Qed.

Lemma path_length (visiting : list nat) (u : nat) :
  NoDup visiting -> (forall x, In x visiting -> x < List.length adj) ->
  u < List.length adj -> ~ In u visiting ->
  S (List.length visiting) <= List.length adj.
Proof.
  intros Hnd Hb Hu Hfresh.
  assert (H : NoDup (u :: visiting)) by now constructor.
  apply NoDup_incl_length with (l' := seq 0 (List.length adj)) in H.
  - now rewrite length_seq in H.
  - intros x [<-|Hx]; apply in_seq; [lia|apply Hb in Hx; lia].
Qed.

Lemma visit_correct (fuel : nat) :
  forall visiting,
    NoDup visiting -> (forall x, In x visiting -> x < List.length adj) ->
    List.length adj < fuel + List.length visiting ->
    visit_ok adj visiting (visit adj fuel visiting).
Proof.
  induction fuel as [|fuel IH]; intros visiting Hnd Hb Hfuel acc u Hacc Hu Hfresh Hfree Hpath.
  - pose proof (path_length visiting u Hnd Hb Hu Hfresh). simpl in Hfuel. lia.
  - simpl. destruct (memb u (map fst acc)) eqn:E.
    + apply memb_In in E. repeat split; auto.
      exists []. now rewrite app_nil_r.
    + apply memb_not_In in E.
      pose proof (path_length visiting u Hnd Hb Hu Hfresh) as Hlen.
      assert (Hrec : visit_ok adj (u :: visiting) (visit adj fuel (u :: visiting))).
      { apply IH.
        - now constructor.
        - intros x [<-|Hx]; auto.
        - simpl. lia. }
      assert (Hfree' : forall x, In x (u :: visiting) -> ~ In x (map fst acc)).
      { intros x [<-|Hx]; auto. }
      assert (Hpath' : forall x, In x (u :: visiting) -> reaches adj x u).
      { intros x [<-|Hx]; [apply reaches_refl|auto]. }
      destruct (visit_deps_ok (u :: visiting) _ u Hrec Hpath' (nth u adj []) acc []
                  (fun d Hd => Hd) Hacc Hfree' (fun x Hx => match Hx with end))
        as [H1 [[more H2] [H3 [H4 H5]]]].
      destruct (visit_deps (visit adj fuel (u :: visiting)) (u :: visiting)
                           (nth u adj []) acc []) as [acc' kept] eqn:Evd.
      simpl in H1, H2, H3, H4, H5.
      assert (Hu' : ~ In u (map fst acc')) by (apply H3; now left).
      repeat split.
      * eapply topo_snoc with (path := u :: visiting); eauto.
      * exists (more ++ [(u, kept)]). rewrite H2. now rewrite app_assoc.
      * rewrite map_app, in_app_iff. right. now left.
      * intros x Hx. rewrite map_app, in_app_iff. simpl.
        intros [H|[H|[]]].
        -- revert H. apply H3. now right.
        -- subst. contradiction.
Qed.

Lemma traverse_from (us : list nat) :
  forall acc,
    topo adj acc -> (forall u, In u us -> u < List.length adj) ->
    let fin := fold_left (fun acc u => visit adj (S (List.length adj)) [] acc u) us acc in
    topo adj fin /\
    (forall u, In u (map fst acc) \/ In u us -> In u (map fst fin)).
Proof.
  induction us as [|u us IH]; intros acc Hacc Hus; simpl.
  - split; [exact Hacc|]. intros u [H|[]]. exact H.
  - destruct (visit_correct (S (List.length adj)) [] (NoDup_nil _)
                (fun x (Hx : In x []) => match Hx with end)
                ltac:(simpl; lia) acc u Hacc (Hus u (or_introl eq_refl))
                (fun Hx => Hx) (fun x (Hx : In x []) => match Hx with end)
                (fun x (Hx : In x []) => match Hx with end))
      as [H1 [[more H2] [H3 _]]].
    destruct (IH _ H1 (fun x Hx => Hus x (or_intror Hx))) as [H4 H5].
    split; [exact H4|].
    intros x [Hx|[<-|Hx]]; apply H5; auto.
    left. rewrite H2, map_app, in_app_iff. now left.
Qed.

Lemma traverse_correct :
  topo adj (traverse adj) /\
  (forall u, u < List.length adj -> In u (map fst (traverse adj))).
Proof.
  destruct (traverse_from (seq 0 (List.length adj)) [] (topo_nil adj)) as [H1 H2].
  { intros u Hu. apply in_seq in Hu. lia. }
  split; [exact H1|]. intros u Hu. apply H2. right. apply in_seq. lia.
Qed.

End Traversal.

(** ** Well-formed task lists *)

Lemma well_formed_position (ts : list Task) (t : Task) :
  well_formed ts -> In t ts -> nth_error ts (id t) = Some t.
Proof.
  intros [Hid _] Hin. apply In_nth_error in Hin. destruct Hin as [i Hi].
  assert (H : nth_error (map id ts) i = Some (id t)) by now rewrite nth_error_map, Hi.
  rewrite Hid in H.
  assert (Hlt : i < List.length ts) by (apply nth_error_Some; congruence).
  rewrite nth_error_seq in H.
  destruct (Nat.ltb_spec i (List.length ts)); [|lia].
  inversion H. now subst.
Qed.

Lemma well_formed_deps (ts : list Task) (t : Task) :
  well_formed ts -> In t ts -> nth (id t) (map dependsOn ts) [] = dependsOn t.
Proof.
  intros Hwf Hin. pose proof (well_formed_position ts t Hwf Hin) as H.
  apply nth_error_nth with (d := []). now rewrite nth_error_map, H.
Qed.

Lemma well_formed_adj (ts : list Task) :
  well_formed ts ->
  forall u d, In d (nth u (map dependsOn ts) []) -> d < List.length (map dependsOn ts).
Proof.
  intros Hwf u d Hd. rewrite length_map.
  destruct (Nat.ltb_spec u (List.length (map dependsOn ts))) as [Hu|Hu].
  - rewrite length_map in Hu.
    destruct (nth_error ts u) as [t|] eqn:E; [|apply nth_error_None in E; lia].
    assert (Hds : nth u (map dependsOn ts) [] = dependsOn t).
    { apply nth_error_nth. now rewrite nth_error_map, E. }
    rewrite Hds in Hd. destruct Hwf as [_ [Hb _]].
    eapply Hb; eauto. eapply nth_error_In; eauto.
  - rewrite nth_overflow in Hd by exact Hu. destruct Hd.
Qed.

Lemma well_formed_NoDup (ts : list Task) : well_formed ts -> NoDup (map id ts).
Proof. intros [Hid _]. rewrite Hid. apply seq_NoDup. Qed.

Lemma well_formed_ids (ts : list Task) (d : nat) :
  well_formed ts -> (In d (map id ts) <-> d < List.length ts).
Proof. intros [Hid _]. rewrite Hid, in_seq. lia. Qed.

(** ** Breaking cycles *)

Lemma filter_all {A} (P : A -> bool) (l : list A) :
  (forall d, In d l -> In d (filter P l)) -> filter P l = l.
Proof.
  intros H.
  assert (HP : forall d, In d l -> P d = true).
  { intros d Hd. apply H in Hd. apply filter_In in Hd. tauto. }
  clear H. induction l as [|d l IH]; simpl; [reflexivity|].
  rewrite HP by now left. f_equal. apply IH. intros d' Hd'. apply HP. now right.
Qed.

Lemma kept_of_In (fin : finished) (u : nat) (kept : list nat) :
  NoDup (map fst fin) -> In (u, kept) fin -> kept_of fin u = kept.
Proof.
  unfold kept_of. induction fin as [|[u0 k0] fin IH]; simpl; [tauto|].
  intros Hnd [H|H].
  - inversion H. subst. now rewrite Nat.eqb_refl.
  - inversion Hnd as [|? ? Hnotin Hnd']. subst.
    destruct (Nat.eqb u0 u) eqn:E.
    + apply Nat.eqb_eq in E. subst. exfalso. apply Hnotin.
      apply in_map_iff. now exists (u, kept).
    + auto.
Qed.

Lemma topo_entry (adj : list (list nat)) (acc : finished) (u : nat) (kept : list nat) :
  topo adj acc -> In (u, kept) acc ->
  exists path,
    kept = filter (fun v => negb (memb v path)) (nth u adj []) /\
    (forall x, In x path -> reaches adj x u).
Proof.
  induction 1 as [|acc u0 path k0 Hacc IH Hu Hfresh Hkept Hincl Hcyc]; simpl; [tauto|].
  rewrite in_app_iff. intros [H|[H|[]]]; [auto|].
  inversion H. subst. now exists path.
Qed.

(** Among the finished tasks that satisfy [r] there is one none of whose
    kept prerequisites satisfies [r]. *)
Lemma topo_minimal (adj : list (list nat)) (r : nat -> bool) (acc : finished) :
  topo adj acc ->
  (exists x, In x (map fst acc) /\ r x = true) ->
  exists u kept, In (u, kept) acc /\ r u = true /\
                 forall v, In v kept -> r v = false.
Proof.
  induction 1 as [|acc u path kept Hacc IH Hu Hfresh Hkept Hincl Hcyc];
    intros [x [Hx Hr]]; [destruct Hx|].
  destruct (existsb r (map fst acc)) eqn:E.
  - apply existsb_exists in E. destruct (IH E) as [u' [k' [Hin [Hru Hk]]]].
    exists u', k'. split; [apply in_app_iff; now left|auto].
  - rewrite map_app, in_app_iff in Hx. simpl in Hx.
    assert (Hnone : forall v, In v (map fst acc) -> r v = false).
    { intros v Hv. destruct (r v) eqn:Ev; [|reflexivity].
      assert (existsb r (map fst acc) = true) by (apply existsb_exists; eauto).
      congruence. }
    destruct Hx as [Hx|[<-|[]]]; [rewrite Hnone in Hr by exact Hx; discriminate|].
    exists u, kept. split; [apply in_app_iff; right; now left|].
    split; [exact Hr|]. intros v Hv. apply Hnone. now apply Hincl.
Qed.

Section Resolver.

Variable ts : list Task.
Hypothesis ts_ok : well_formed ts.

Let adj := map dependsOn ts.
Let fin := traverse adj.

Lemma fin_topo : topo adj fin.
Proof. apply traverse_correct. now apply well_formed_adj. Qed.

Lemma fin_all (u : nat) : u < List.length ts -> In u (map fst fin).
Proof.
  intros Hu. apply traverse_correct; [now apply well_formed_adj|].
  unfold adj. now rewrite length_map.
Qed.

(** The prerequisites a task keeps are those that are not on the path from
    which the traversal reached it; all the tasks of that path depend on it. *)
Lemma kept_of_spec (t : Task) :
  In t ts ->
  exists path,
    kept_of fin (id t) = filter (fun v => negb (memb v path)) (dependsOn t) /\
    (forall x, In x path -> reaches adj x (id t)).
Proof.
  intros Hin.
  assert (Hu : In (id t) (map fst fin)).
  { apply fin_all. apply well_formed_ids; auto. apply in_map_iff. eauto. }
  apply in_map_iff in Hu. destruct Hu as [[u kept] [Hfst Hu]]. simpl in Hfst. subst u.
  destruct (topo_entry adj fin (id t) kept fin_topo Hu) as [path [Hk Hp]].
  exists path. rewrite (kept_of_In fin (id t) kept (topo_NoDup adj fin fin_topo) Hu).
  unfold adj in Hk. rewrite well_formed_deps in Hk by auto. auto.
Qed.

Lemma break_cycles_ids : map id (break_cycles ts) = map id ts.
Proof. unfold break_cycles. rewrite map_map. reflexivity. Qed.

Lemma break_cycles_length : List.length (break_cycles ts) = List.length ts.
Proof. unfold break_cycles. apply length_map. Qed.

Lemma break_cycles_In (t' : Task) :
  In t' (break_cycles ts) <->
  exists t, In t ts /\ t' = with_dependsOn t (kept_of fin (id t)).
Proof.
  unfold break_cycles. rewrite in_map_iff. split; intros [t [H1 H2]]; exists t; auto.
Qed.

Lemma break_cycles_well_formed : well_formed (break_cycles ts).
Proof.
  destruct ts_ok as [Hid [Hb Hd]]. repeat split.
  - now rewrite break_cycles_ids, break_cycles_length.
  - intros t' d Ht' Hd'. apply break_cycles_In in Ht'. destruct Ht' as [t [Ht ->]].
    simpl in Hd'. rewrite break_cycles_length.
    destruct (kept_of_spec t Ht) as [path [Hk _]]. rewrite Hk in Hd'.
    apply filter_In in Hd'. apply (Hb t d Ht). tauto.
  - intros t' Ht'. apply break_cycles_In in Ht'. destruct Ht' as [t [Ht ->]].
    simpl. auto.
Qed.

(** Without offending edges nothing is changed. *)
Lemma break_cycles_none : offending_edges ts = [] -> break_cycles ts = ts.
Proof.
  intros Hoff. unfold break_cycles. rewrite <- (map_id ts) at 2.
  apply map_ext_in. intros t Ht.
  assert (Hall : forall d, In d (dependsOn t) -> In d (kept_of fin (id t))).
  { intros d Hd. destruct (memb d (kept_of fin (id t))) eqn:E; [now apply memb_In|].
    exfalso. unfold offending_edges in Hoff.
    assert (Hin : In (id t, d)
                     (flat_map (fun t0 => map (fun d0 => (id t0, d0))
                        (filter (fun d0 => negb (memb d0 (kept_of (traverse (map dependsOn ts)) (id t0))))
                                (dependsOn t0))) ts)).
    { apply in_flat_map. exists t. split; [exact Ht|].
      apply in_map. apply filter_In. split; [exact Hd|].
      fold adj. fold fin. now rewrite E. }
    rewrite Hoff in Hin. destruct Hin. }
  destruct (kept_of_spec t Ht) as [path [Hk _]].
  assert (Hsame : kept_of fin (id t) = dependsOn t).
  { rewrite Hk. apply filter_all. now rewrite <- Hk. }
  fold adj. fold fin. rewrite Hsame. now destruct t.
Qed.

Lemma resolve_alt : resolve ts = topological_order (break_cycles ts).
Proof.
  unfold resolve, resolve_strict.
  destruct (offending_edges ts) eqn:E; [|reflexivity].
  now rewrite break_cycles_none.
Qed.

End Resolver.

(** ** The stable topological order *)

Lemma NoDup_app_disjoint {A} (l1 l2 : list A) (a : A) :
  NoDup (l1 ++ l2) -> In a l1 -> In a l2 -> False.
Proof.
  induction l1 as [|x l1 IH]; simpl; [tauto|].
  intros Hnd [<-|H1] H2; inversion Hnd; subst.
  - match goal with H : ~ In _ _ |- _ => apply H end. apply in_app_iff. now right.
  - auto.
Qed.

Lemma pick_ready_spec (placed : list nat) (remaining : list Task) :
  forall t rest,
    pick_ready placed remaining = Some (t, rest) ->
    ready placed t = true /\
    exists l1 l2, remaining = l1 ++ t :: l2 /\ rest = l1 ++ l2 /\
                  Forall (fun x => ready placed x = false) l1.
Proof.
  induction remaining as [|x remaining IH]; intros t rest; simpl; [discriminate|].
  destruct (ready placed x) eqn:E.
  - intros [= <- <-]. split; [exact E|]. exists [], remaining. repeat split. constructor.
  - destruct (pick_ready placed remaining) as [[y rest']|]; [|discriminate].
    intros [= <- <-]. destruct (IH y rest' eq_refl) as [Hy [l1 [l2 [H1 [H2 H3]]]]].
    split; [exact Hy|]. exists (x :: l1), l2. subst. repeat split. now constructor.
Qed.

Lemma pick_ready_none (placed : list nat) (remaining : list Task) :
  pick_ready placed remaining = None ->
  forall t, In t remaining -> ready placed t = false.
Proof.
  induction remaining as [|x remaining IH]; simpl; [tauto|].
  destruct (ready placed x) eqn:E; [discriminate|].
  destruct (pick_ready placed remaining) as [[y rest']|]; [discriminate|].
  intros _ t [<-|Ht]; auto.
Qed.

Section Ordering.

Variables (ps : list Task) (adj : list (list nat)) (fin : finished).
Hypothesis ps_ok : well_formed ps.
Hypothesis fin_topo : topo adj fin.
Hypothesis fin_all : forall u, u < List.length ps -> In u (map fst fin).
Hypothesis ps_deps : forall t, In t ps -> dependsOn t = kept_of fin (id t).

Lemma some_task_ready (placed remaining : list Task) :
  Permutation (placed ++ remaining) ps -> remaining <> [] ->
  exists t, In t remaining /\ ready (map id placed) t = true.
Proof.
  intros Hperm Hne.
  assert (Hsub : forall t, In t remaining -> In t ps).
  { intros t Ht. apply (Permutation_in _ Hperm). apply in_app_iff. now right. }
  destruct (topo_minimal adj (fun x => memb x (map id remaining)) fin fin_topo)
    as [u [kept [Hin [Hu Hkept]]]].
  { destruct remaining as [|t0 rest]; [congruence|].
    exists (id t0). split.
    - apply fin_all. apply well_formed_ids; auto. apply in_map, Hsub. now left.
    - apply memb_In. now left. }
  apply memb_In, in_map_iff in Hu. destruct Hu as [t [Hid Ht]].
  exists t. split; [exact Ht|].
  unfold ready. apply forallb_forall. intros d Hd. apply memb_In.
  rewrite (ps_deps t (Hsub t Ht)), Hid in Hd.
  rewrite (kept_of_In fin u kept (topo_NoDup adj fin fin_topo) Hin) in Hd.
  assert (Hdps : In d (map id ps)).
  { rewrite <- Hid in Hin.
    apply well_formed_ids; auto. destruct ps_ok as [_ [Hb _]].
    apply (Hb t d (Hsub t Ht)). rewrite (ps_deps t (Hsub t Ht)).
    now rewrite (kept_of_In fin (id t) kept (topo_NoDup adj fin fin_topo) Hin). }
  apply (Permutation_in _ (Permutation_map id (Permutation_sym Hperm))) in Hdps.
  rewrite map_app, in_app_iff in Hdps. destruct Hdps as [H|H]; [exact H|].
  apply Hkept in Hd. apply memb_not_In in Hd. contradiction.
Qed.

Lemma order_from_correct (fuel : nat) :
  forall placed remaining,
    List.length remaining <= fuel ->
    Permutation (placed ++ remaining) ps ->
    in_order placed ->
    Permutation (order_from fuel placed remaining) ps /\
    in_order (order_from fuel placed remaining).
Proof.
  induction fuel as [|fuel IH]; intros placed remaining Hlen Hperm Hord; simpl.
  - destruct remaining; [|simpl in Hlen; lia]. rewrite app_nil_r in *. auto.
  - destruct (pick_ready (map id placed) remaining) as [[t rest]|] eqn:E.
    + destruct (pick_ready_spec _ _ _ _ E) as [Hready [l1 [l2 [-> [-> _]]]]].
      assert (Hperm' : Permutation ((placed ++ [t]) ++ l1 ++ l2) ps).
      { rewrite <- Hperm. rewrite <- app_assoc. apply Permutation_app_head.
        simpl. apply Permutation_middle. }
      apply IH; auto.
      * rewrite length_app in *. simpl in Hlen. lia.
      * constructor; auto.
        -- intros d Hd. apply memb_In.
           unfold ready in Hready. rewrite forallb_forall in Hready. auto.
        -- pose proof (well_formed_NoDup ps ps_ok) as Hnd.
           apply (Permutation_NoDup (Permutation_map id (Permutation_sym Hperm))) in Hnd.
           rewrite map_app in Hnd. intros Hin.
           apply (NoDup_app_disjoint _ _ _ Hnd Hin).
           rewrite map_app. apply in_app_iff. right. now left.
    + destruct remaining as [|t0 rest]; [rewrite app_nil_r in *; auto|].
      destruct (some_task_ready placed (t0 :: rest) Hperm) as [t [Ht Hr]]; [discriminate|].
      rewrite (pick_ready_none _ _ E t Ht) in Hr. discriminate.
Qed.

Lemma topological_order_correct :
  Permutation (topological_order ps) ps /\ in_order (topological_order ps).
Proof.
  apply order_from_correct; auto. constructor.
Qed.

End Ordering.

Lemma resolve_correct (ts : list Task) :
  well_formed ts ->
  Permutation (resolve ts) (break_cycles ts) /\ in_order (resolve ts).
Proof.
  intros Hwf. rewrite resolve_alt by exact Hwf.
  apply (topological_order_correct (break_cycles ts) (map dependsOn ts)
           (traverse (map dependsOn ts))).
  - now apply break_cycles_well_formed.
  - now apply fin_topo.
  - intros u Hu. apply fin_all; auto. now rewrite break_cycles_length in Hu.
  - intros t Ht. apply break_cycles_In in Ht. destruct Ht as [t0 [_ ->]]. reflexivity.
Qed.

(** ** The forward pass *)

#[local] Open Scope Z_scope.

Lemma fold_max_base (es : list Z) : forall e, e <= fold_left Z.max es e.
Proof.
  induction es as [|y es IH]; intros e; simpl; [lia|].
  specialize (IH (Z.max e y)). lia.
Qed.

Lemma fold_max_ge (es : list Z) :
  forall e x, In x (e :: es) -> x <= fold_left Z.max es e.
Proof.
  induction es as [|y es IH]; intros e x Hx; simpl.
  - destruct Hx as [->|[]]. lia.
  - destruct Hx as [->|[->|H]].
    + pose proof (fold_max_base es (Z.max x y)). lia.
    + pose proof (fold_max_base es (Z.max e x)). lia.
    + apply IH. now right.
Qed.

Lemma fold_max_in (es : list Z) :
  forall e, In (fold_left Z.max es e) (e :: es).
Proof.
  induction es as [|y es IH]; intros e; simpl; [now left|].
  destruct (IH (Z.max e y)) as [H|H]; [|now right; right].
  rewrite <- H. destruct (Z.max_spec e y) as [[_ ->]|[_ ->]]; auto.
Qed.

Lemma end_of_Some (l : list Task) (d : nat) (e : Z) :
  end_of l d = Some e -> exists td, In td l /\ id td = d /\ endDate td = e.
Proof.
  unfold end_of. destruct (find (fun t => Nat.eqb (id t) d) l) as [td|] eqn:E; [|discriminate].
  intros [= <-]. apply find_some in E. destruct E as [Hin Hid].
  apply Nat.eqb_eq in Hid. eauto.
Qed.

Lemma end_of_In (l : list Task) (td : Task) :
  NoDup (map id l) -> In td l -> end_of l (id td) = Some (endDate td).
Proof.
  unfold end_of. induction l as [|x l IH]; simpl; [tauto|].
  intros Hnd [->|Hin].
  - now rewrite Nat.eqb_refl.
  - inversion Hnd as [|? ? Hfresh Hnd']. subst.
    destruct (Nat.eqb (id x) (id td)) eqn:E; [|auto].
    apply Nat.eqb_eq in E. exfalso. apply Hfresh. rewrite E. now apply in_map.
Qed.

Lemma ends_of_In (l : list Task) (ds : list nat) (x : Z) :
  In x (ends_of l ds) <-> exists d, In d ds /\ end_of l d = Some x.
Proof.
  induction ds as [|d ds IH]; simpl.
  - split; [tauto|]. intros [d [[] _]].
  - destruct (end_of l d) as [e|] eqn:E; simpl; rewrite IH; split.
    + intros [<-|[d' [H1 H2]]]; eauto.
    + intros [d' [[<-|H1] H2]]; [left; congruence|eauto].
    + intros [d' [H1 H2]]; eauto.
    + intros [d' [[<-|H1] H2]]; [congruence|eauto].
Qed.

Lemma schedule_from_snoc (start : Z) (todo : list Task) :
  forall scheduled t,
    schedule_from start scheduled (todo ++ [t])
    = let r := schedule_from start scheduled todo in
      r ++ [with_dates t (start_for start r t) (start_for start r t + durationDays t)].
Proof.
  induction todo as [|x todo IH]; intros scheduled t; simpl; [reflexivity|].
  apply IH.
Qed.

Lemma schedule_snoc (start : Z) (l : list Task) (t : Task) :
  schedule start (l ++ [t])
  = schedule start l
      ++ [with_dates t (start_for start (schedule start l) t)
                     (start_for start (schedule start l) t + durationDays t)].
Proof. apply schedule_from_snoc. Qed.

(** The pass changes the dates only. *)
Lemma schedule_same (start : Z) (l : list Task) :
  Forall2 (fun t t' => t' = with_dates t (startDate t') (endDate t')) l (schedule start l).
Proof.
  induction l as [|t l IH] using rev_ind; [constructor|].
  rewrite schedule_snoc. apply Forall2_app; [exact IH|]. constructor; [|constructor].
  reflexivity.
Qed.

Lemma Forall2_map_eq {A B} (f : A -> B) (R : A -> A -> Prop) (l l' : list A) :
  (forall x y, R x y -> f y = f x) -> Forall2 R l l' -> map f l' = map f l.
Proof.
  intros HR. induction 1; simpl; [reflexivity|]. f_equal; auto.
Qed.

Lemma schedule_ids (start : Z) (l : list Task) : map id (schedule start l) = map id l.
Proof.
  apply (Forall2_map_eq id _ _ _ (fun x y (H : y = with_dates x _ _) => f_equal id H)
           (schedule_same start l)).
Qed.

Lemma schedule_correct (start : Z) (l : list Task) :
  in_order l -> dates_ok start (schedule start l).
Proof.
  induction 1 as [|l t Hord IH Hdeps Hfresh]; [intros t []|].
  rewrite schedule_snoc.
  set (r := schedule start l) in *.
  assert (Hids : map id r = map id l) by apply schedule_ids.
  assert (Hnd : NoDup (map id r)).
  { rewrite Hids. clear -Hord. induction Hord as [|l t Hord IH Hdeps Hfresh]; [constructor|].
    rewrite map_app. apply NoDup_app; [exact IH|repeat constructor; simpl; tauto|].
    intros x Hx [<-|[]]. contradiction. }
  set (s := start_for start r t).
  intros t0 Hin. apply in_app_iff in Hin. destruct Hin as [Hin|[<-|[]]].
  - destruct (IH t0 Hin) as [H1 [H2 [H3 H4]]].
    split; [exact H1|]. split; [exact H2|]. split.
    + intros d Hd. destruct (H3 d Hd) as [td [Htd H]].
      exists td. split; [apply in_app_iff; now left|exact H].
    + intros Hne. destruct (H4 Hne) as [td [Htd H]].
      exists td. split; [apply in_app_iff; now left|exact H].
  - simpl.
    assert (Hfound : forall d, In d (dependsOn t) ->
                     exists td, In td r /\ id td = d /\ end_of r d = Some (endDate td)).
    { intros d Hd. apply Hdeps in Hd. rewrite <- Hids in Hd.
      apply in_map_iff in Hd. destruct Hd as [td [Hid Htd]].
      exists td. split; [exact Htd|]. split; [exact Hid|].
      rewrite <- Hid. now apply end_of_In. }
    split; [reflexivity|]. split; [|split].
    + intros Hnil. unfold s, start_for. now rewrite Hnil.
    + intros d Hd. destruct (Hfound d Hd) as [td [Htd [Hid He]]].
      exists td. split; [apply in_app_iff; now left|]. split; [exact Hid|].
      unfold s, start_for.
      assert (Hx : In (endDate td) (ends_of r (dependsOn t))).
      { apply ends_of_In. eauto. }
      destruct (ends_of r (dependsOn t)) as [|e es]; [destruct Hx|].
      now apply fold_max_ge.
    + intros Hne. unfold s, start_for.
      destruct (ends_of r (dependsOn t)) as [|e es] eqn:E.
      * exfalso. destruct (dependsOn t) as [|d ds] eqn:Ed; [congruence|].
        destruct (Hfound d (or_introl eq_refl)) as [td [_ [_ He]]].
        simpl in E. rewrite He in E. discriminate.
      * pose proof (fold_max_in es e) as Hmax. rewrite <- E in Hmax.
        apply ends_of_In in Hmax. destruct Hmax as [d [Hd He]].
        apply end_of_Some in He. destruct He as [td [Htd [Hid He]]].
        exists td. split; [apply in_app_iff; now left|].
        split; [now rewrite Hid|exact He].
Qed.

Lemma Forall2_In_left {A B} (R : A -> B -> Prop) (l : list A) (l' : list B) (x : A) :
  Forall2 R l l' -> In x l -> exists y, In y l' /\ R x y.
Proof.
  induction 1 as [|a b l l' Hab Hll IH]; simpl; [tauto|].
  intros [<-|H]; [eauto|]. destruct (IH H) as [y [Hy Hxy]]. eauto.
Qed.

Lemma Forall2_In_right {A B} (R : A -> B -> Prop) (l : list A) (l' : list B) (y : B) :
  Forall2 R l l' -> In y l' -> exists x, In x l /\ R x y.
Proof.
  induction 1 as [|a b l l' Hab Hll IH]; simpl; [tauto|].
  intros [<-|H]; [eauto|]. destruct (IH H) as [x [Hx Hxy]]. eauto.
Qed.

Lemma in_order_NoDup (l : list Task) : in_order l -> NoDup (map id l).
Proof.
  induction 1 as [|l t Hord IH Hdeps Hfresh]; [constructor|].
  rewrite map_app. apply NoDup_app; [exact IH|repeat constructor; simpl; tauto|].
  intros x Hx [<-|[]]. contradiction.
Qed.

Lemma schedule_bounds (start : Z) (l : list Task) :
  in_order l -> (forall t, In t l -> 0 < durationDays t) ->
  forall t, In t (schedule start l) ->
            0 < durationDays t /\ start <= startDate t /\ startDate t < endDate t.
Proof.
  induction 1 as [|l t Hord IH Hdeps Hfresh]; intros Hdur; [intros t []|].
  rewrite schedule_snoc.
  assert (IH' : forall t0, In t0 (schedule start l) ->
                0 < durationDays t0 /\ start <= startDate t0 /\ startDate t0 < endDate t0).
  { apply IH. intros t0 Ht0. apply Hdur. apply in_app_iff. now left. }
  set (r := schedule start l) in *.
  intros t0 Hin. apply in_app_iff in Hin. destruct Hin as [Hin|[<-|[]]]; [auto|].
  assert (Hd : 0 < durationDays t) by (apply Hdur; apply in_app_iff; right; now left).
  assert (Hs : start <= start_for start r t).
  { unfold start_for. destruct (ends_of r (dependsOn t)) as [|e es] eqn:E; [lia|].
    pose proof (fold_max_in es e) as Hmax. rewrite <- E in Hmax.
    apply ends_of_In in Hmax. destruct Hmax as [d [_ He]].
    apply end_of_Some in He. destruct He as [td [Htd [_ He]]].
    destruct (IH' td Htd) as [_ [H1 H2]]. lia. }
  simpl. repeat split; lia.
Qed.

(** ** The balancer *)

#[local] Open Scope nat_scope.

Lemma least_loaded_In (counted : list Task) (others : list string) :
  forall best, In (least_loaded counted best others) (best :: others).
Proof.
  induction others as [|m rest IH]; intros best; simpl; [now left|].
  destruct (Nat.ltb (load counted m) (load counted best)).
  - right. apply IH.
  - destruct (IH best) as [H|H]; [now left|now right; right].
Qed.

Lemma choose_assignee (r : list string) (counted : list Task) (t : Task) :
  choose r counted t = with_assignee t (assignee (choose r counted t)) /\
  (r <> [] -> In (assignee (choose r counted t)) r).
Proof.
  unfold choose. destruct (mems (assignee t) r) eqn:E.
  - split; [now destruct t|]. intros _. now apply mems_In.
  - destruct r as [|m rest]; [split; [now destruct t|congruence]|].
    split; [reflexivity|]. intros _. simpl assignee. apply least_loaded_In.
Qed.

Lemma balance_from_correct (r : list string) (todo : list Task) :
  forall decided,
  exists out,
    balance_from r decided todo = decided ++ out /\
    Forall2 (fun t t' => t' = with_assignee t (assignee t') /\
                         (r <> [] -> In (assignee t') r)) todo out.
Proof.
  induction todo as [|t rest IH]; intros decided; simpl.
  - exists []. split; [now rewrite app_nil_r|constructor].
  - destruct (IH (decided ++ [choose r (decided ++ rest) t])) as [out [H1 H2]].
    exists (choose r (decided ++ rest) t :: out). split.
    + rewrite H1. now rewrite <- app_assoc.
    + constructor; [apply choose_assignee|exact H2].
Qed.

Lemma balance_correct (r : list string) (ts : list Task) :
  Forall2 (fun t t' => t' = with_assignee t (assignee t') /\
                       (r <> [] -> In (assignee t') r)) ts (balance r ts).
Proof.
  destruct (balance_from_correct r ts []) as [out [H1 H2]].
  unfold balance. now rewrite H1.
Qed.

Lemma is_blank_generic (i : nat) : is_blank (generic_member i) = false.
Proof. reflexivity. Qed.

Lemma effective_roster_ok (r : list string) (hint : nat) (ts : list Task) :
  effective_roster r hint ts <> [] /\
  forall m, In m (effective_roster r hint ts) -> is_blank m = false.
Proof.
  unfold effective_roster. destruct (clean_roster r) as [|m0 known] eqn:E.
  - set (k := Nat.max 1 _). assert (Hk : 1 <= k) by (unfold k; lia).
    split.
    + unfold generic_roster. destruct k; [lia|]. simpl. discriminate.
    + intros m Hm. apply in_map_iff in Hm. destruct Hm as [i [<- _]].
      apply is_blank_generic.
  - split; [discriminate|]. intros m Hm. rewrite <- E in Hm.
    unfold clean_roster in Hm. apply nodup_In, filter_In in Hm.
    destruct Hm as [_ Hm]. now destruct (is_blank m).
Qed.

(** ** The normalizer and the fallback generator *)

Lemma indexed_fst {A} (l : list A) : map fst (indexed l) = seq 0 (List.length l).
Proof.
  unfold indexed. generalize 0. induction l as [|x l IH]; intros k; simpl; [reflexivity|].
  now rewrite IH.
Qed.

Lemma indexed_length {A} (l : list A) : List.length (indexed l) = List.length l.
Proof. rewrite <- (length_map fst), indexed_fst. apply length_seq. Qed.

Lemma indexed_In {A} (l : list A) (i : nat) (x : A) :
  In (i, x) (indexed l) -> i < List.length l.
Proof.
  intros H. apply in_combine_l in H. apply in_seq in H. lia.
Qed.

Lemma known_refs_bound (n : nat) (l : list json) (d : nat) :
  In d (known_refs n l) -> d < n.
Proof.
  induction l as [|j l IH]; simpl; [tauto|].
  destruct (known_ref n j) as [d'|] eqn:E; [|exact IH].
  intros [<-|H]; [|auto].
  unfold known_ref in E. destruct j; try discriminate.
  destruct ((0 <=? z)%Z && (z <? Z.of_nat n)%Z) eqn:Ez; [|discriminate].
  inversion E. apply andb_true_iff in Ez. destruct Ez as [H1 H2].
  apply Z.leb_le in H1. apply Z.ltb_lt in H2. lia.
Qed.

Lemma norm_duration_pos (o : list (string * json)) : (0 < norm_duration o)%Z.
Proof.
  unfold norm_duration, default_duration.
  destruct (match field "durationDays" o with
            | Some v => Some v
            | None => field "duration" o
            end) as [[]|]; try lia.
  destruct (0 <? z)%Z eqn:E; [now apply Z.ltb_lt|lia].
Qed.

Lemma normalize_well_formed (raw : json) : well_formed (normalize raw).
Proof.
  destruct raw; try (repeat split; simpl; intros; tauto).
  unfold normalize. repeat split.
  - rewrite length_map, indexed_length, <- indexed_fst, map_map.
    apply map_ext. now intros [i item].
  - intros t d Ht Hd. rewrite length_map, indexed_length.
    apply in_map_iff in Ht. destruct Ht as [[i item] [<- _]].
    simpl in Hd. unfold norm_dependsOn in Hd.
    destruct (field "dependsOn" _) as [[]|]; try destruct Hd.
    apply nodup_In in Hd. now apply known_refs_bound in Hd.
  - intros t Ht. apply in_map_iff in Ht. destruct Ht as [[i item] [<- _]].
    simpl. apply norm_duration_pos.
Qed.

Lemma fallback_total_pos (rq : Request) : (0 < fallback_total rq)%Z.
Proof.
  unfold fallback_total, positive_or, default_total.
  destruct (requestedDays rq) as [z|].
  - destruct (0 <? z)%Z eqn:E; [now apply Z.ltb_lt|].
    destruct (duration_hint (transcript rq)) as [h|]; [|lia].
    destruct (0 <? h)%Z eqn:Eh; [now apply Z.ltb_lt|lia].
  - destruct (duration_hint (transcript rq)) as [h|]; [|lia].
    destruct (0 <? h)%Z eqn:Eh; [now apply Z.ltb_lt|lia].
Qed.

Lemma fallback_well_formed (total : Z) :
  (0 < total)%Z ->
  well_formed (fallback_tasks total) /\ fallback_tasks total <> [].
Proof.
  intros Htot. unfold fallback_tasks.
  set (count := Z.to_nat (Z.min (Z.of_nat (List.length phases)) (Z.max 1 total))).
  assert (Hc : 1 <= count <= 5 /\ (Z.of_nat count <= total)%Z).
  { unfold count. simpl List.length. lia. }
  assert (Hlen : List.length (firstn count phases) = count).
  { apply firstn_length_le. simpl. lia. }
  split; [repeat split|].
  - rewrite length_map, indexed_length, <- indexed_fst, map_map.
    apply map_ext. now intros [i nm].
  - intros t d Ht Hd. rewrite length_map, indexed_length.
    apply in_map_iff in Ht. destruct Ht as [[i nm] [<- Hin]].
    apply indexed_In in Hin. simpl in Hd.
    destruct i as [|j]; [destruct Hd|]. destruct Hd as [<-|[]]. lia.
  - intros t Ht. apply in_map_iff in Ht. destruct Ht as [[i nm] [<- _]].
    simpl.
    assert (1 <= total / Z.of_nat count)%Z by (apply Z.div_le_lower_bound; lia).
    destruct (Z.of_nat i <? total mod Z.of_nat count)%Z; lia.
  - intros H. apply (f_equal (@List.length Task)) in H.
    rewrite length_map, indexed_length, Hlen in H. simpl in H. lia.
Qed.

Lemma source_tasks_ok (rq : Request) :
  well_formed (source_tasks rq) /\ source_tasks rq <> [].
Proof.
  unfold source_tasks. destruct (raw_tasks rq) as [|t ts] eqn:E.
  - apply fallback_well_formed, fallback_total_pos.
  - split; [|discriminate]. rewrite <- E. unfold raw_tasks.
    destruct (ai rq); try apply normalize_well_formed; repeat split; simpl; intros; tauto.
Qed.

(** ** The assembled plan *)

#[local] Open Scope Z_scope.

Lemma dates_ok_balance (start : Z) (r : list string) (l l' : list Task) :
  Forall2 (fun t t' => t' = with_assignee t (assignee t') /\
                       (r <> [] -> In (assignee t') r)) l l' ->
  dates_ok start l -> dates_ok start l'.
Proof.
  intros HF Hok t' Ht'.
  destruct (Forall2_In_right _ _ _ _ HF Ht') as [t [Ht [Heq _]]].
  destruct (Hok t Ht) as [H1 [H2 [H3 H4]]].
  rewrite Heq. simpl. split; [exact H1|]. split; [exact H2|]. split.
  - intros d Hd. destruct (H3 d Hd) as [td [Htd [Hid Hle]]].
    destruct (Forall2_In_left _ _ _ _ HF Htd) as [td' [Htd' [Heq' _]]].
    exists td'. split; [exact Htd'|]. rewrite Heq'. simpl. auto.
  - intros Hne. destruct (H4 Hne) as [td [Htd [Hid He]]].
    destruct (Forall2_In_left _ _ _ _ HF Htd) as [td' [Htd' [Heq' _]]].
    exists td'. split; [exact Htd'|]. rewrite Heq'. simpl. auto.
Qed.

(** The facts about the pipeline that the three claims share. *)
Lemma pipeline (rq : Request) :
  let p := generate_plan rq in
  let ts := source_tasks rq in
  planStartDate p = anchor rq /\
  Permutation (map id (tasks p)) (map id ts) /\
  NoDup (map id (tasks p)) /\
  tasks p <> [] /\
  dates_ok (anchor rq) (tasks p) /\
  (forall t, In t (tasks p) ->
     0 < durationDays t /\ anchor rq <= startDate t /\ startDate t < endDate t) /\
  (forall t, In t (tasks p) ->
     is_blank (assignee t) = false /\ In (assignee t) (teamMembers p)).
Proof.
  intros p ts.
  destruct (source_tasks_ok rq) as [Hwf Hne]. fold ts in Hwf, Hne.
  destruct (resolve_correct ts Hwf) as [Hperm Hord].
  set (start := anchor rq).
  set (scheduled := schedule start (resolve ts)).
  set (hint := if degraded rq then team_hint (transcript rq) else 0%nat).
  set (r := effective_roster (roster rq) hint scheduled).
  assert (Htasks : tasks p = balance r scheduled) by reflexivity.
  pose proof (balance_correct r scheduled) as HF. rewrite <- Htasks in HF.
  destruct (effective_roster_ok (roster rq) hint scheduled) as [Hr Hblank].
  fold r in Hr, Hblank.
  assert (Hids : map id (tasks p) = map id (resolve ts)).
  { rewrite <- (schedule_ids start (resolve ts)). fold scheduled.
    clear -HF. induction HF as [|t t' l l' [Heq _] _ IH]; simpl; [reflexivity|].
    rewrite IH, Heq. reflexivity. }
  assert (Hdur : forall t, In t (resolve ts) -> 0 < durationDays t).
  { intros t Ht. apply (Permutation_in _ Hperm) in Ht.
    apply (break_cycles_well_formed ts Hwf). exact Ht. }
  split; [reflexivity|]. split; [|split; [|split; [|split; [|split]]]].
  - rewrite Hids, <- (break_cycles_ids ts). now apply Permutation_map.
  - rewrite Hids. now apply in_order_NoDup.
  - intros Hnil. apply (f_equal (@List.length Task)) in Hnil.
    rewrite <- (length_map id), Hids, length_map in Hnil.
    rewrite (Permutation_length Hperm), break_cycles_length in Hnil.
    destruct ts; [congruence|discriminate].
  - apply (dates_ok_balance start r scheduled); [exact HF|].
    now apply schedule_correct.
  - intros t' Ht'.
    destruct (Forall2_In_right _ _ _ _ HF Ht') as [t [Ht [Heq _]]].
    rewrite Heq. simpl. apply (schedule_bounds start (resolve ts)); auto.
  - intros t' Ht'.
    destruct (Forall2_In_right _ _ _ _ HF Ht') as [t [Ht [_ Hin]]].
    split; [apply Hblank; auto|].
    unfold p, generate_plan, assemble. simpl. apply nodup_In. apply in_map.
    exact Ht'.
Qed.

Lemma assemble_span (nm : string) (start : Z) (ts : list Task) :
  ts <> [] ->
  let p := assemble nm start ts in
  planEndDate p = planStartDate p + totalDurationDays p /\
  (forall t, In t ts -> endDate t <= planEndDate p) /\
  (exists t, In t ts /\ endDate t = planEndDate p) /\
  (exists t, In t ts /\ totalDurationDays p = endDate t - start).
Proof.
  intros Hne. unfold assemble, max_end. simpl.
  destruct (map endDate ts) as [|e es] eqn:E.
  { destruct ts; [congruence|discriminate]. }
  split; [reflexivity|].
  assert (Hin : In (fold_left Z.max es e) (map endDate ts)).
  { rewrite E. apply fold_max_in. }
  apply in_map_iff in Hin. destruct Hin as [t [Ht Hin]].
  split; [|split].
  - intros t0 Ht0. assert (H : In (endDate t0) (e :: es)) by (rewrite <- E; now apply in_map).
    apply fold_max_ge in H. lia.
  - exists t. split; [exact Hin|]. lia.
  - exists t. split; [exact Hin|]. lia.
Qed.

(** ** Sample requests *)

Example plan_when_ai_failed :
  let p := generate_plan (mkRequest AiFailed None 100 [] None []) in
  map (fun t => (name t, dependsOn t, startDate t, endDate t, assignee t)) (tasks p)
  = [ ("Planning", [], 100, 106, "Team Member 1");
      ("Design", [0%nat], 106, 112, "Team Member 1");
      ("Development", [1%nat], 112, 118, "Team Member 1");
      ("Testing", [2%nat], 118, 124, "Team Member 1");
      ("Deployment", [3%nat], 124, 130, "Team Member 1") ] /\
  totalDurationDays p = 30 /\ planEndDate p = 130.
Proof. vm_compute. repeat split; reflexivity. Qed.

Example plan_for_null_payload :
  generate_plan (mkRequest (AiReturned JNull) None 100 [] None [])
  = generate_plan (mkRequest AiTimedOut None 100 [] None []).
Proof. reflexivity. Qed.

(** "6 weeks" and "3 people" in the transcript: 42 days, three generic
    members. *)
Example plan_from_transcript :
  let p := generate_plan
             (mkRequest (AiReturned (JArr [])) None 0 [] None
                        [mkMessage "user" "An app in 6 weeks with 3 people"]) in
  totalDurationDays p = 42 /\
  map durationDays (tasks p) = [9; 9; 8; 8; 8] /\
  map assignee (tasks p)
  = ["Team Member 1"; "Team Member 2"; "Team Member 3";
     "Team Member 1"; "Team Member 2"] /\
  List.length (teamMembers p) = 3%nat.
Proof. vm_compute. repeat split; reflexivity. Qed.

(** ** The claims about the engine *)

(** C1: whatever the request - a payload that is null, empty or malformed, a
    cyclic dependency graph, an AI call that failed or timed out - the engine
    returns a plan (the function is total, there is no error result) whose
    task list is not empty, whose dates are consistent (positive durations,
    every task inside the span of the plan, end = start + duration, every
    prerequisite finished before its dependent starts, plan end = plan start +
    total duration = the latest task end) and whose tasks all carry a
    non-blank assignee listed in the team. *)
Theorem generate_plan_total (rq : Request) :
  let p := generate_plan rq in
  tasks p <> [] /\
  NoDup (map id (tasks p)) /\
  (forall t, In t (tasks p) ->
     0 < durationDays t /\
     planStartDate p <= startDate t /\
     endDate t = startDate t + durationDays t /\
     endDate t <= planEndDate p /\
     (forall d, In d (dependsOn t) ->
        exists td, In td (tasks p) /\ id td = d /\ endDate td <= startDate t) /\
     is_blank (assignee t) = false /\
     In (assignee t) (teamMembers p)) /\
  planEndDate p = planStartDate p + totalDurationDays p /\
  (exists t, In t (tasks p) /\ endDate t = planEndDate p) /\
  0 < totalDurationDays p.
Proof.
  intros p.
  destruct (pipeline rq) as [Hstart [_ [Hnd [Hne [Hok [Hb Ha]]]]]]. fold p in Hstart, Hnd, Hne, Hok, Hb, Ha.
  destruct (assemble_span (project_name rq) (anchor rq) (tasks p) Hne)
    as [Hend [Hle [Hmax _]]].
  change (assemble (project_name rq) (anchor rq) (tasks p)) with p in Hend, Hle, Hmax.
  split; [exact Hne|]. split; [exact Hnd|]. split; [|split; [exact Hend|split; [exact Hmax|]]].
  - intros t Ht. destruct (Hb t Ht) as [H1 [H2 H3]].
    destruct (Hok t Ht) as [H4 [_ [H5 _]]]. destruct (Ha t Ht) as [H6 H7].
    rewrite Hstart. repeat split; auto.
  - destruct Hmax as [t [Ht He]]. destruct (Hb t Ht) as [H1 [H2 H3]].
    rewrite Hstart in Hend. lia.
Qed.

(** C2: in the plan of every request, a task without prerequisites starts on
    the start date of the plan, a task with prerequisites starts on the
    latest end date of its prerequisites (all of them tasks of the plan), and
    every task ends [durationDays] after it starts, the end day excluded.
    Design (5 days) then Build (10 days, after Design) from 2024-01-01:
    Design spans days 0-5, Build days 5-15, 15 days in total; a one-day task
    starting on day 0 ends on day 1. *)
Theorem schedule_dates :
  (forall (rq : Request) (t : Task),
     In t (tasks (generate_plan rq)) ->
     (dependsOn t = [] -> startDate t = planStartDate (generate_plan rq)) /\
     (dependsOn t <> [] ->
        (exists td, In td (tasks (generate_plan rq)) /\ In (id td) (dependsOn t) /\
                    startDate t = endDate td) /\
        (forall td, In td (tasks (generate_plan rq)) -> In (id td) (dependsOn t) ->
                    endDate td <= startDate t) /\
        (forall d, In d (dependsOn t) -> In d (map id (tasks (generate_plan rq))))) /\
     endDate t = startDate t + durationDays t) /\
  (let p := generate_plan design_build in
   planStartDate p = days_from_civil 2024 1 1 /\
   map (fun t => (name t, durationDays t, dependsOn t,
                  startDate t - planStartDate p, endDate t - planStartDate p))
       (tasks p)
   = [ ("Design", 5, [], 0, 5); ("Build", 10, [0%nat], 5, 15) ] /\
   totalDurationDays p = 15) /\
  (let p := generate_plan
              (mkRequest (AiReturned (JArr [JObj [("name", JStr "Kickoff");
                                                  ("durationDays", JNum 1)]]))
                         (Some 0) 0 [] None []) in
   map (fun t => (startDate t, endDate t)) (tasks p) = [(0, 1)]).
Proof.
  split; [|split; [vm_compute; repeat split; reflexivity|vm_compute; reflexivity]].
  intros rq t Ht.
  destruct (pipeline rq) as [Hstart [_ [Hnd [_ [Hok _]]]]].
  destruct (Hok t Ht) as [H1 [H2 [H3 H4]]].
  split; [rewrite Hstart; exact H2|]. split; [|exact H1].
  intros Hdeps. split; [|split].
  - destruct (H4 Hdeps) as [td [Htd [Hin He]]]. exists td. auto.
  - intros td Htd Hin. destruct (H3 _ Hin) as [td' [Htd' [Hid Hle]]].
    assert (td' = td); [|now subst].
    clear -Hnd Htd Htd' Hid.
    induction (tasks (generate_plan rq)) as [|x l IH]; [destruct Htd|].
    simpl in Hnd. inversion Hnd as [|? ? Hfresh Hnd']. subst.
    destruct Htd as [->|Htd], Htd' as [->|Htd']; auto.
    + exfalso. apply Hfresh. rewrite <- Hid. now apply in_map.
    + exfalso. apply Hfresh. rewrite Hid. now apply in_map.
  - intros d Hd. destruct (H3 d Hd) as [td [Htd [Hid _]]].
    rewrite <- Hid. now apply in_map.
Qed.

Lemma schedule_dates_witness :
  let rq := design_build in
  let t := mkTask 1 "Build" "" 10 [0%nat] "Team Member 1" medium pending 19728 19738 in
  (dependsOn t = [] -> startDate t = planStartDate (generate_plan rq)) /\
  (dependsOn t <> [] ->
     (exists td, In td (tasks (generate_plan rq)) /\ In (id td) (dependsOn t) /\
                 startDate t = endDate td) /\
     (forall td, In td (tasks (generate_plan rq)) -> In (id td) (dependsOn t) ->
                 endDate td <= startDate t) /\
     (forall d, In d (dependsOn t) -> In d (map id (tasks (generate_plan rq))))) /\
  endDate t = startDate t + durationDays t.
Proof.
  apply (proj1 schedule_dates design_build
           (mkTask 1 "Build" "" 10 [0%nat] "Team Member 1" medium pending 19728 19738)).
  vm_compute. right. left. reflexivity.
Defined.

(** C7: on a well-formed task list the resolver keeps every task and drops
    only dependency edges; every edge it drops completes a cycle (the dropped
    prerequisite depends, through the original edges, on the task it was a
    prerequisite of); the list it returns is in topological order, every task
    after all the prerequisites it keeps, so the resolved graph is acyclic;
    the cycle error of the strict resolver never leaves the engine, and when
    the strict resolver does not fail nothing is dropped.  The task lists the
    pipeline hands to the resolver are all well-formed.  On the cycle
    A -> B -> C -> A one edge is dropped and the three tasks are returned. *)
Theorem resolve_breaks_cycles :
  (forall ts : list Task,
     well_formed ts ->
     Permutation (map id (resolve ts)) (map id ts) /\
     (forall t', In t' (resolve ts) ->
        exists t, In t ts /\ t' = with_dependsOn t (dependsOn t') /\
                  incl (dependsOn t') (dependsOn t) /\
                  forall d, In d (dependsOn t) -> ~ In d (dependsOn t') ->
                            reaches (map dependsOn ts) d (id t)) /\
     in_order (resolve ts) /\
     (forall ordered, resolve_strict ts = inr ordered ->
                      ordered = resolve ts /\ Permutation ordered ts)) /\
  (forall rq : Request, well_formed (source_tasks rq)) /\
  (let ts := normalize three_cycle in
   map (fun t => (name t, id t, dependsOn t)) ts
   = [("A", 0, [1]); ("B", 1, [2]); ("C", 2, [0])]%nat /\
   resolve_strict ts = inl (CyclicDependency [(2, 0)]%nat) /\
   map (fun t => (name t, id t, dependsOn t)) (resolve ts)
   = [("C", 2, []); ("B", 1, [2]); ("A", 0, [1])]%nat /\
   map name (tasks (generate_plan (mkRequest (AiReturned three_cycle)
                                             None 0 [] None [])))
   = ["C"; "B"; "A"]).
Proof.
  split; [|split; [intros rq; apply source_tasks_ok|vm_compute; repeat split; reflexivity]].
  intros ts Hwf. destruct (resolve_correct ts Hwf) as [Hperm Hord].
  split; [|split; [|split]].
  - rewrite <- (break_cycles_ids ts). now apply Permutation_map.
  - intros t' Ht'. apply (Permutation_in _ Hperm) in Ht'.
    apply break_cycles_In in Ht'. destruct Ht' as [t [Ht ->]].
    exists t. split; [exact Ht|]. split; [reflexivity|]. simpl.
    destruct (kept_of_spec ts Hwf t Ht) as [path [Hk Hp]]. rewrite Hk.
    split.
    + intros d Hd. apply filter_In in Hd. tauto.
    + intros d Hd Hnot. apply Hp. apply memb_In.
      destruct (memb d path) eqn:E; [reflexivity|].
      exfalso. apply Hnot. apply filter_In. split; [exact Hd|]. now rewrite E.
  - exact Hord.
  - intros ordered Hstrict. unfold resolve. rewrite Hstrict. split; [reflexivity|].
    unfold resolve_strict in Hstrict.
    destruct (offending_edges ts) eqn:E; [|discriminate].
    inversion Hstrict. subst ordered.
    pose proof Hperm as Hperm'. rewrite (resolve_alt ts Hwf) in Hperm'.
    now rewrite (break_cycles_none ts Hwf E) in Hperm'.
Qed.

Lemma resolve_breaks_cycles_witness :
  let ts := normalize three_cycle in
  Permutation (map id (resolve ts)) (map id ts) /\
  (forall t', In t' (resolve ts) ->
     exists t, In t ts /\ t' = with_dependsOn t (dependsOn t') /\
               incl (dependsOn t') (dependsOn t) /\
               forall d, In d (dependsOn t) -> ~ In d (dependsOn t') ->
                         reaches (map dependsOn ts) d (id t)) /\
  in_order (resolve ts) /\
  (forall ordered, resolve_strict ts = inr ordered ->
                   ordered = resolve ts /\ Permutation ordered ts).
Proof.
  apply (proj1 resolve_breaks_cycles (normalize three_cycle)).
  vm_compute. split; [reflexivity|]. split.
  - intros t d [<-|[<-|[<-|[]]]] [<-|[]]; repeat constructor.
  - intros t [<-|[<-|[<-|[]]]]; reflexivity.
Defined.

End EngineProofs.

(* ===================================================================== *)
(** * More facts about the Gantt chart component                          *)
(* ===================================================================== *)

Module GanttViewProofs.

Import JsNumber Gantt GanttView GanttProofs.

(** ** Colours *)

Lemma char_code_sum_chars (s : string) :
  char_code_sum s = list_sum (map nat_of_ascii (chars s)).
Proof. induction s as [|c s IH]; simpl; congruence. Qed.

Lemma list_sum_perm (l l' : list nat) : Permutation l l' -> list_sum l = list_sum l'.
Proof. induction 1; simpl; lia. Qed.

(** X1: [getColorScheme] never reads outside [neonColors]: every name, the
    empty one included, gets one of the six schemes; and the scheme depends
    on the characters of the name only, not on their order. *)
Theorem getColorScheme_defined (who : string) :
  getColorScheme who = char_code_sum who mod List.length neonColors /\
  (exists scheme, colorSchemeOf who = Some scheme /\ In scheme neonColors) /\
  (forall other, Permutation (chars who) (chars other) ->
                 colorSchemeOf other = colorSchemeOf who).
Proof.
  split; [reflexivity|]. split.
  - unfold colorSchemeOf.
    assert (H : char_code_sum who mod List.length neonColors < List.length neonColors).
    { apply Nat.mod_upper_bound. discriminate. }
    destruct (nth_error neonColors (char_code_sum who mod List.length neonColors))
      as [scheme|] eqn:E.
    + exists scheme. split; [reflexivity|]. eapply nth_error_In; eauto.
    + apply nth_error_None in E. lia.
  - intros other Hperm. unfold colorSchemeOf.
    rewrite !char_code_sum_chars.
    now rewrite (list_sum_perm _ _ (Permutation_map nat_of_ascii Hperm)).
Qed.

(** ** Toggles and the completed count *)

Lemma toggle_one_comm (a b : JsId) (t : Task) :
  toggle_one a (toggle_one b t) = toggle_one b (toggle_one a t).
Proof.
  unfold toggle_one.
  destruct (strict_eq (id t) a) eqn:Ea, (strict_eq (id t) b) eqn:Eb; simpl;
    rewrite ?Ea, ?Eb; try reflexivity.
Qed.

(** X2: toggles commute: clicking two tasks in either order gives the same
    task list (for one and the same id as well). *)
Theorem toggleTaskStatus_comm (a b : JsId) (ts : list Task) :
  toggleTaskStatus a (toggleTaskStatus b ts)
  = toggleTaskStatus b (toggleTaskStatus a ts).
Proof.
  rewrite !toggleTaskStatus_map, !map_map. apply map_ext.
  intros t. apply toggle_one_comm.
Qed.

Lemma toggle_rest_unchanged (taskId : JsId) (ts : list Task) :
  ~ In taskId (map id ts) -> toggleTaskStatus taskId ts = ts.
Proof.
  induction ts as [|t ts IH]; simpl; intros H; [reflexivity|].
  rewrite strict_eq_neq by tauto. f_equal. apply IH. tauto.
Qed.

Lemma is_completed_flip (t : Task) :
  is_completed (with_status t (flip (status t))) = negb (is_completed t).
Proof.
  unfold is_completed, flip. simpl.
  destruct (String.eqb (status t) "completed"); reflexivity.
Qed.

Lemma toggle_count (ts : list Task) (t : Task) :
  NoDup (map id ts) -> In t ts ->
  if is_completed t
  then S (completedTasks (toggleTaskStatus (id t) ts)) = completedTasks ts
  else completedTasks (toggleTaskStatus (id t) ts) = S (completedTasks ts).
Proof.
  intros Hnd Hin. unfold completedTasks.
  induction ts as [|x ts IH]; [destruct Hin|].
  simpl in Hnd. inversion Hnd as [|? ? Hfresh Hnd']. subst.
  destruct Hin as [->|Hin].
  - simpl. rewrite (proj2 (strict_eq_iff _ _) eq_refl).
    rewrite (toggle_rest_unchanged (id t) ts Hfresh).
    rewrite is_completed_flip.
    destruct (is_completed t); simpl; reflexivity.
  - assert (Hne : id x <> id t).
    { intros E. apply Hfresh. rewrite E. now apply in_map. }
    simpl. rewrite (strict_eq_neq _ _ Hne).
    specialize (IH Hnd' Hin).
    destruct (is_completed t), (is_completed x); simpl; lia.
Qed.

(** X3: with distinct ids, toggling a task of the list moves the completed
    count by exactly one: up when the task was not completed, down when it
    was; the number of tasks stays the same, so the remaining count moves by
    one the other way. *)
Theorem toggle_changes_count_by_one (ts : list Task) (t : Task) :
  NoDup (map id ts) -> In t ts ->
  List.length (toggleTaskStatus (id t) ts) = List.length ts /\
  (if is_completed t
   then S (completedTasks (toggleTaskStatus (id t) ts)) = completedTasks ts
   else completedTasks (toggleTaskStatus (id t) ts) = S (completedTasks ts)) /\
  (if is_completed t
   then List.length (toggleTaskStatus (id t) ts)
        - completedTasks (toggleTaskStatus (id t) ts)
        = S (List.length ts - completedTasks ts)
   else S (List.length (toggleTaskStatus (id t) ts)
           - completedTasks (toggleTaskStatus (id t) ts))
        = List.length ts - completedTasks ts).
Proof.
  intros Hnd Hin.
  pose proof (toggle_count ts t Hnd Hin) as Hc.
  pose proof (toggle_length (id t) ts) as Hl.
  pose proof (completedTasks_le ts) as Hle.
  pose proof (completedTasks_le (toggleTaskStatus (id t) ts)) as Hle'.
  split; [exact Hl|]. split; [exact Hc|].
  destruct (is_completed t); lia.
Qed.

Lemma toggle_changes_count_by_one_witness :
  let ts := [sample 1 "Ann" "pending"; sample 2 "Bob" "completed"] in
  let t := sample 2 "Bob" "completed" in
  List.length (toggleTaskStatus (id t) ts) = List.length ts /\
  (if is_completed t
   then S (completedTasks (toggleTaskStatus (id t) ts)) = completedTasks ts
   else completedTasks (toggleTaskStatus (id t) ts) = S (completedTasks ts)) /\
  (if is_completed t
   then List.length (toggleTaskStatus (id t) ts)
        - completedTasks (toggleTaskStatus (id t) ts)
        = S (List.length ts - completedTasks ts)
   else S (List.length (toggleTaskStatus (id t) ts)
           - completedTasks (toggleTaskStatus (id t) ts))
        = List.length ts - completedTasks ts).
Proof.
  apply (toggle_changes_count_by_one
           [sample 1 "Ann" "pending"; sample 2 "Bob" "completed"]
           (sample 2 "Bob" "completed")).
  - simpl. constructor.
    + simpl. intros [H|[]]. discriminate H.
    + constructor; [simpl; tauto|constructor].
  - simpl. right. left. reflexivity.
Defined.

(** ** The grouping loop *)

(** What a successful iteration of the loop leaves. *)
Lemma group_step_Ok (o o1 : JsObject.t (list Task)) (t : Task) :
  group_step o t = Ok o1 ->
  o1 = JsObject.set o (assignee t)
         (match JsObject.own o (assignee t) with
          | Some arr => arr ++ [t]
          | None => [t]
          end).
Proof.
  destruct (JsObject.inherited (assignee t)) eqn:Ei.
  - destruct (JsObject.own o (assignee t)) as [arr|] eqn:Eo.
    + unfold group_step, JsObject.get. rewrite Eo. cbn [JsObject.falsy].
      rewrite Eo. now intros [= <-].
    + rewrite group_step_inherited by assumption. discriminate.
  - rewrite group_step_plain by assumption. now intros [= <-].
Qed.

Lemma own_keys {V} (o : JsObject.t V) (k : string) :
  existsb (String.eqb k) (map fst o) = match JsObject.own o k with
                                       | Some _ => true
                                       | None => false
                                       end.
Proof.
  induction o as [|[k0 v0] o IH]; simpl; [reflexivity|].
  rewrite (String.eqb_sym k k0). destruct (String.eqb k0 k); simpl; auto.
Qed.

Lemma group_from_keys (ts : list Task) :
  forall o o', group_from o ts = Ok o' ->
               map fst o' = first_seen_from (map fst o) (map assignee ts).
Proof.
  induction ts as [|t ts IH]; intros o o'; simpl.
  - now intros [= <-].
  - destruct (group_step o t) as [o1|] eqn:E; simpl; [|discriminate].
    intros H. rewrite (IH _ _ H). apply group_step_Ok in E. subst o1.
    rewrite keys_set, own_keys.
    now destruct (JsObject.own o (assignee t)).
Qed.

Lemma group_from_tally (f : Task -> nat) (ts : list Task) :
  forall o o', group_from o ts = Ok o' ->
               JsObject.weight (tally f) o' = JsObject.weight (tally f) o + tally f ts.
Proof.
  induction ts as [|t ts IH]; intros o o'; simpl.
  - intros [= <-]. unfold tally. simpl. lia.
  - destruct (group_step o t) as [o1|] eqn:E; simpl; [|discriminate].
    intros H. rewrite (IH _ _ H). apply group_step_Ok in E. subst o1.
    pose proof (weight_set (tally f) o (assignee t)
                  (match JsObject.own o (assignee t) with
                   | Some arr => arr ++ [t]
                   | None => [t]
                   end)) as Hw.
    unfold tally in *.
    destruct (JsObject.own o (assignee t)) as [arr|];
      [rewrite map_app, list_sum_app in Hw|]; simpl in *; lia.
Qed.

Lemma count_tally (p : Task -> bool) (l : list Task) :
  List.length (filter p l) = tally (fun t => if p t then 1 else 0) l.
Proof.
  unfold tally. induction l as [|t l IH]; simpl; [reflexivity|].
  destruct (p t); simpl; lia.
Qed.

Lemma teamProgress_Ok (ts : list Task) (rows : list MemberProgress) :
  teamProgress ts = Ok rows ->
  exists o, group_from [] ts = Ok o /\ rows = map member_entry (JsObject.entries o).
Proof.
  unfold teamProgress, tasksByMember.
  destruct (group_from [] ts) as [o|]; simpl; [|discriminate].
  intros [= <-]. now exists o.
Qed.

(** X4: whenever the team view is produced, the completed counts of the
    cards add up to the overall completed count and the totals to the number
    of tasks, and no card has more completed tasks than tasks. *)
Theorem teamProgress_counts_add_up (ts : list Task) (rows : list MemberProgress) :
  teamProgress ts = Ok rows ->
  list_sum (map member_completed rows) = completedTasks ts /\
  list_sum (map total rows) = List.length ts /\
  (forall r, In r rows -> member_completed r <= total r).
Proof.
  intros H. destruct (teamProgress_Ok ts rows H) as [o [Ho ->]].
  pose proof (entries_perm o) as Hperm.
  split; [|split].
  - pose proof (group_from_tally (fun t => if is_completed t then 1 else 0) ts [] o Ho) as Ht.
    rewrite <- (weight_perm _ _ _ Hperm) in Ht.
    unfold completedTasks. rewrite count_tally. simpl in Ht. rewrite <- Ht.
    unfold JsObject.weight. rewrite map_map. f_equal. apply map_ext.
    intros [k arr]. simpl. apply count_tally.
  - pose proof (group_from_tally (fun _ => 1) ts [] o Ho) as Ht.
    rewrite <- (weight_perm _ _ _ Hperm) in Ht.
    assert (Hlen : forall l : list Task, tally (fun _ => 1) l = List.length l).
    { intros l. unfold tally. induction l; simpl; auto. }
    rewrite Hlen in Ht. simpl in Ht. rewrite <- Ht.
    unfold JsObject.weight. rewrite map_map. f_equal. apply map_ext.
    intros [k arr]. simpl. now rewrite Hlen.
  - intros r Hr. apply in_map_iff in Hr. destruct Hr as [[k arr] [<- _]].
    simpl. apply filter_length_le.
Qed.

Lemma teamProgress_counts_add_up_witness :
  let ts := [sample 1 "Ann" "pending"; sample 2 "Bob" "completed";
             sample 3 "Ann" "completed"] in
  let rows := [member_entry ("Ann", [sample 1 "Ann" "pending"; sample 3 "Ann" "completed"]);
               member_entry ("Bob", [sample 2 "Bob" "completed"])] in
  list_sum (map member_completed rows) = completedTasks ts /\
  list_sum (map total rows) = List.length ts /\
  (forall r, In r rows -> member_completed r <= total r).
Proof.
  apply (teamProgress_counts_add_up
           [sample 1 "Ann" "pending"; sample 2 "Bob" "completed";
            sample 3 "Ann" "completed"]).
  reflexivity.
Defined.

(** ** The order of the cards *)

Lemma first_seen_from_In (l : list string) :
  forall seen k, In k (first_seen_from seen l) <-> In k seen \/ In k l.
Proof.
  induction l as [|x l IH]; intros seen k; simpl; [tauto|].
  rewrite IH. destruct (existsb (String.eqb x) seen) eqn:E.
  - apply existsb_exists in E. destruct E as [y [Hy E]].
    apply String.eqb_eq in E. subst y. split; [tauto|].
    intros [H|[<-|H]]; auto.
  - rewrite in_app_iff. simpl. tauto.
Qed.

Lemma insert_by_index_sorted (i : N) (e : string * list Task)
      (l : list (N * (string * list Task))) :
  StronglySorted by_index l -> StronglySorted by_index (JsObject.insert_by_index i e l).
Proof.
  induction 1 as [|[j e'] l Hs IH Hall]; simpl.
  - repeat constructor.
  - destruct (N.leb_spec i j) as [Hle|Hgt].
    + constructor; [now constructor|].
      constructor; [exact Hle|].
      eapply Forall_impl; [|exact Hall]. unfold by_index. simpl. intros; lia.
    + constructor; [exact IH|].
      eapply Permutation_Forall; [apply Permutation_sym, insert_by_index_perm|].
      constructor; [unfold by_index; simpl; lia|exact Hall].
Qed.

Lemma index_entries_spec (o : JsObject.t (list Task)) :
  StronglySorted by_index (JsObject.index_entries o) /\
  Forall (fun ie => JsObject.array_index (fst (snd ie)) = Some (fst ie))
         (JsObject.index_entries o) /\
  Permutation (map (fun ie => fst (snd ie)) (JsObject.index_entries o))
              (filter is_index_name (map fst o)).
Proof.
  induction o as [|[k v] o [IH1 [IH2 IH3]]]; simpl.
  - repeat split; constructor.
  - unfold is_index_name at 1. simpl.
    destruct (JsObject.array_index k) as [i|] eqn:E; [|auto].
    split; [now apply insert_by_index_sorted|]. split.
    + eapply Permutation_Forall; [apply Permutation_sym, insert_by_index_perm|].
      now constructor.
    + rewrite (Permutation_map _ (insert_by_index_perm i (k, v) _)). simpl.
      now constructor.
Qed.

Lemma named_entries_keys (o : JsObject.t (list Task)) :
  map fst (JsObject.named_entries o)
  = filter (fun k => negb (is_index_name k)) (map fst o).
Proof.
  unfold JsObject.named_entries, is_index_name.
  induction o as [|[k v] o IH]; simpl; [reflexivity|].
  destruct (JsObject.array_index k); simpl; congruence.
Qed.

(** X5: the cards come in the order of [Object.entries]: first the members
    whose name is an array index ("0", "7", "12", ...), by increasing number,
    then all the others in the order in which they first occur in the task
    list.  When no name is an array index, the cards simply follow the first
    occurrences. *)
Theorem teamProgress_card_order (ts : list Task) (rows : list MemberProgress) :
  teamProgress ts = Ok rows ->
  let names := first_seen (map assignee ts) in
  (exists numbered,
     map member rows
     = numbered ++ filter (fun k => negb (is_index_name k)) names /\
     Permutation numbered (filter is_index_name names) /\
     StronglySorted (fun a b => (index_of_name a <= index_of_name b)%N) numbered) /\
  ((forall t, In t ts -> is_index_name (assignee t) = false) ->
   map member rows = names).
Proof.
  intros H names. destruct (teamProgress_Ok ts rows H) as [o [Ho ->]].
  pose proof (group_from_keys ts [] o Ho) as Hkeys. simpl in Hkeys.
  fold (first_seen (map assignee ts)) in Hkeys. fold names in Hkeys.
  destruct (index_entries_spec o) as [Hs [Hidx Hperm]].
  assert (Hmem : map member (map member_entry (JsObject.entries o))
                 = map (fun ie => fst (snd ie)) (JsObject.index_entries o)
                   ++ filter (fun k => negb (is_index_name k)) names).
  { rewrite map_map. unfold JsObject.entries. rewrite map_app, map_map.
    f_equal.
    - apply map_ext. now intros [i [k arr]].
    - rewrite <- Hkeys, <- named_entries_keys, <- map_map.
      rewrite map_map. apply map_ext. now intros [k arr]. }
  split.
  - exists (map (fun ie => fst (snd ie)) (JsObject.index_entries o)).
    split; [exact Hmem|]. split; [now rewrite <- Hkeys|].
    clear -Hs Hidx. induction Hs as [|[i [k arr]] l Hs IH Hall]; simpl; constructor.
    + apply IH. now inversion Hidx.
    + inversion Hidx as [|? ? Hi Hrest]. subst. simpl in Hi.
      apply Forall_map. rewrite Forall_forall in *.
      intros [j [k' arr']] Hin. simpl.
      specialize (Hall _ Hin). specialize (Hrest _ Hin). simpl in Hrest.
      unfold by_index in Hall. simpl in Hall.
      unfold index_of_name. now rewrite Hi, Hrest.
  - intros Hplain. rewrite Hmem.
    assert (Hnone : forall k, In k names -> is_index_name k = false).
    { intros k Hk. unfold names, first_seen in Hk.
      apply first_seen_from_In in Hk. destruct Hk as [[]|Hk].
      apply in_map_iff in Hk. destruct Hk as [t [<- Ht]]. auto. }
    assert (Hno : filter is_index_name (map fst o) = []).
    { rewrite Hkeys. clear -Hnone. induction names as [|k l IH]; simpl; [reflexivity|].
      rewrite Hnone by now left. apply IH. intros; apply Hnone; now right. }
    rewrite Hno in Hperm. apply Permutation_sym, Permutation_nil in Hperm.
    rewrite Hperm. simpl.
    clear -Hnone. induction names as [|k l IH]; simpl; [reflexivity|].
    rewrite Hnone by now left. simpl. f_equal. apply IH. intros; apply Hnone; now right.
Qed.

Lemma teamProgress_card_order_witness :
  let ts := [sample 1 "Bob" "pending"; sample 2 "10" "completed";
             sample 3 "Bob" "completed"; sample 4 "9" "pending"] in
  let rows := [member_entry ("9", [sample 4 "9" "pending"]);
               member_entry ("10", [sample 2 "10" "completed"]);
               member_entry ("Bob", [sample 1 "Bob" "pending"; sample 3 "Bob" "completed"])] in
  let names := first_seen (map assignee ts) in
  (exists numbered,
     map member rows
     = numbered ++ filter (fun k => negb (is_index_name k)) names /\
     Permutation numbered (filter is_index_name names) /\
     StronglySorted (fun a b => (index_of_name a <= index_of_name b)%N) numbered) /\
  ((forall t, In t ts -> is_index_name (assignee t) = false) ->
   map member rows = names).
Proof.
  apply (teamProgress_card_order
           [sample 1 "Bob" "pending"; sample 2 "10" "completed";
            sample 3 "Bob" "completed"; sample 4 "9" "pending"]).
  reflexivity.
Defined.

(** ** Toggles and the team view *)

Lemma toggle_one_id_assignee (taskId : JsId) (t : Task) :
  assignee (toggle_one taskId t) = assignee t.
Proof. unfold toggle_one. now destruct (strict_eq (id t) taskId). Qed.

Section Natural.

Variable f : Task -> Task.
Hypothesis f_assignee : forall t, assignee (f t) = assignee t.

Lemma own_values_map {V W} (g : V -> W) (o : JsObject.t V) (k : string) :
  JsObject.own (values_map g o) k = option_map g (JsObject.own o k).
Proof.
  induction o as [|[k0 v0] o IH]; simpl; [reflexivity|].
  destruct (String.eqb k0 k); auto.
Qed.

Lemma set_values_map {V W} (g : V -> W) (o : JsObject.t V) (k : string) (v : V) :
  JsObject.set (values_map g o) k (g v) = values_map g (JsObject.set o k v).
Proof.
  induction o as [|[k0 v0] o IH]; simpl; [reflexivity|].
  destruct (String.eqb k0 k); simpl; [reflexivity|]. now rewrite IH.
Qed.

Lemma group_step_map (o : JsObject.t (list Task)) (t : Task) :
  group_step (values_map (map f) o) (f t)
  = result_map (values_map (map f)) (group_step o t).
Proof.
  unfold group_step, JsObject.get. rewrite f_assignee, own_values_map.
  destruct (JsObject.own o (assignee t)) as [arr|] eqn:Eo;
    cbn [option_map JsObject.falsy].
  - rewrite own_values_map, Eo. cbn [option_map result_map].
    change (map f arr ++ [f t]) with (map f arr ++ map f [t]).
    rewrite <- map_app. now rewrite set_values_map.
  - destruct (JsObject.inherited (assignee t)) eqn:Ei; cbn [JsObject.falsy].
    + rewrite own_values_map, Eo. reflexivity.
    + rewrite !own_set, String.eqb_refl. cbn [result_map].
      rewrite !set_set. cbn [app].
      change [f t] with (map f [t]). now rewrite set_values_map.
Qed.

Lemma group_from_map (ts : list Task) :
  forall o, group_from (values_map (map f) o) (map f ts)
            = result_map (values_map (map f)) (group_from o ts).
Proof.
  induction ts as [|t ts IH]; intros o; simpl; [reflexivity|].
  rewrite group_step_map. destruct (group_step o t) as [o1|]; simpl; auto.
Qed.

Lemma insert_by_index_map {V W} (g : V -> W) (i : N) (k : string) (v : V)
      (l : list (N * (string * V))) :
  JsObject.insert_by_index i (k, g v)
    (map (fun ie => (fst ie, (fst (snd ie), g (snd (snd ie))))) l)
  = map (fun ie => (fst ie, (fst (snd ie), g (snd (snd ie)))))
        (JsObject.insert_by_index i (k, v) l).
Proof.
  induction l as [|[j [k' v']] l IH]; simpl; [reflexivity|].
  destruct (i <=? j)%N; simpl; [reflexivity|]. now rewrite IH.
Qed.

Lemma entries_values_map {V W} (g : V -> W) (o : JsObject.t V) :
  JsObject.entries (values_map g o) = values_map g (JsObject.entries o).
Proof.
  unfold JsObject.entries, values_map. rewrite map_app. f_equal.
  - assert (H : JsObject.index_entries (map (fun e => (fst e, g (snd e))) o)
                = map (fun ie => (fst ie, (fst (snd ie), g (snd (snd ie)))))
                      (JsObject.index_entries o)).
    { induction o as [|[k v] o IH]; simpl; [reflexivity|].
      destruct (JsObject.array_index k); [|exact IH].
      rewrite IH. apply insert_by_index_map. }
    rewrite H, !map_map. reflexivity.
  - unfold JsObject.named_entries.
    induction o as [|[k v] o IH]; simpl; [reflexivity|].
    destruct (JsObject.array_index k); simpl; congruence.
Qed.

Lemma teamProgress_map (ts : list Task) :
  teamProgress (map f ts) = result_map (map (card_map f)) (teamProgress ts).
Proof.
  unfold teamProgress, tasksByMember.
  pose proof (group_from_map ts []) as H. simpl in H. rewrite H.
  destruct (group_from [] ts) as [o|]; simpl; [|reflexivity].
  rewrite entries_values_map. unfold values_map. rewrite !map_map.
  f_equal. apply map_ext. now intros [k arr].
Qed.

End Natural.

(** X6: a toggle never moves a task to another card: the team view of the
    toggled list is the team view of the list with the toggle applied inside
    every card - same members in the same order, same totals and colours -
    and it fails exactly when the view of the list itself fails. *)
Theorem teamProgress_after_toggle (taskId : JsId) (ts : list Task) :
  teamProgress (toggleTaskStatus taskId ts)
  = result_map (map (card_map (toggle_one taskId))) (teamProgress ts) /\
  (forall rows, teamProgress ts = Ok rows ->
     exists rows',
       teamProgress (toggleTaskStatus taskId ts) = Ok rows' /\
       map member rows' = map member rows /\
       map total rows' = map total rows /\
       map colorScheme rows' = map colorScheme rows /\
       map member_tasks rows' = map (toggleTaskStatus taskId) (map member_tasks rows)) /\
  (teamProgress ts = TypeError <-> teamProgress (toggleTaskStatus taskId ts) = TypeError).
Proof.
  assert (E : teamProgress (toggleTaskStatus taskId ts)
              = result_map (map (card_map (toggle_one taskId))) (teamProgress ts)).
  { rewrite toggleTaskStatus_map. apply teamProgress_map. apply toggle_one_id_assignee. }
  split; [exact E|]. split.
  - intros rows H. rewrite E, H. simpl. eexists. split; [reflexivity|].
    destruct (teamProgress_Ok ts rows H) as [o [_ ->]].
    rewrite !map_map. repeat split; apply map_ext; intros [k arr]; simpl;
      try reflexivity; apply length_map.
  - rewrite E. destruct (teamProgress ts); simpl; split; intros; congruence.
Qed.

(** ** When the team view fails *)

Lemma inherited_In (k : string) :
  JsObject.inherited k = true <-> In k JsObject.object_prototype_keys.
Proof.
  unfold JsObject.inherited. rewrite existsb_exists. split.
  - intros [y [Hy E]]. apply String.eqb_eq in E. now subst.
  - intros H. exists k. split; [exact H|apply String.eqb_refl].
Qed.

(** X7: the team view fails, with a TypeError, exactly when some task is
    assigned to a name that every object inherits from [Object.prototype]
    ("constructor", "toString", "valueOf", "__proto__", ...); for every other
    task list it is produced. *)
Theorem teamProgress_fails_iff (ts : list Task) :
  (teamProgress ts = TypeError <->
   exists t, In t ts /\ In (assignee t) JsObject.object_prototype_keys) /\
  ((forall t, In t ts -> ~ In (assignee t) JsObject.object_prototype_keys) <->
   exists rows, teamProgress ts = Ok rows).
Proof.
  assert (Hdec : (exists t, In t ts /\ JsObject.inherited (assignee t) = true) \/
                 (forall t, In t ts -> JsObject.inherited (assignee t) = false)).
  { destruct (existsb (fun t => JsObject.inherited (assignee t)) ts) eqn:E.
    - left. apply existsb_exists in E. exact E.
    - right. intros t Ht. destruct (JsObject.inherited (assignee t)) eqn:Ei; [|reflexivity].
      assert (existsb (fun t => JsObject.inherited (assignee t)) ts = true)
        by (apply existsb_exists; eauto).
      congruence. }
  split; split.
  - intros Hfail. destruct Hdec as [[t [Ht Hi]]|Hplain].
    + exists t. split; [exact Ht|now apply inherited_In].
    + destruct (teamProgress_partition ts Hplain) as [rows [Hok _]]. congruence.
  - intros [t [Ht Hi]]. apply teamProgress_inherited.
    exists t. split; [exact Ht|now apply inherited_In].
  - intros Hnone. destruct Hdec as [[t [Ht Hi]]|Hplain].
    + exfalso. apply (Hnone t Ht). now apply inherited_In.
    + destruct (teamProgress_partition ts Hplain) as [rows [Hok _]]. eauto.
  - intros [rows Hok] t Ht Hin.
    rewrite teamProgress_inherited in Hok; [discriminate|].
    exists t. split; [exact Ht|now apply inherited_In].
Qed.

(** X8: on task lists whose assignees are not names inherited from
    [Object.prototype], the team view is produced and sorts the tasks by
    assignee: one card per distinct assignee, holding exactly the tasks of
    that assignee in their order, at least one, with their number as total,
    the number of completed ones among them as completed count, and the
    colour of the member's name; every task has the card of its assignee. *)
Theorem teamProgress_cards (ts : list Task) :
  (forall t, In t ts -> ~ In (assignee t) JsObject.object_prototype_keys) ->
  exists rows,
    teamProgress ts = Ok rows /\
    NoDup (map member rows) /\
    (forall r, In r rows ->
       member_tasks r = filter (fun t => String.eqb (assignee t) (member r)) ts /\
       member_tasks r <> [] /\
       total r = List.length (member_tasks r) /\
       member_completed r = List.length (filter is_completed (member_tasks r)) /\
       progress r = percent (member_completed r) (total r) /\
       colorScheme r = getColorScheme (member r)) /\
    (forall t, In t ts ->
       exists r, In r rows /\ member r = assignee t /\ In t (member_tasks r)).
Proof.
  intros Hnone.
  assert (Hplain : forall t, In t ts -> JsObject.inherited (assignee t) = false).
  { intros t Ht. destruct (JsObject.inherited (assignee t)) eqn:E; [|reflexivity].
    exfalso. apply (Hnone t Ht). now apply inherited_In. }
  destruct (teamProgress_partition ts Hplain) as [rows [Hok [Hnd [Hrows [Hcover _]]]]].
  exists rows. split; [exact Hok|]. split; [exact Hnd|]. split.
  - intros r Hr. destruct (Hrows r Hr) as [Htasks [Htot Hone]].
    split; [exact Htasks|]. split.
    + intros E. rewrite E in Htot. simpl in Htot. lia.
    + split; [exact Htot|].
      destruct (teamProgress_Ok ts rows Hok) as [o [_ Hshape]].
      rewrite Hshape in Hr. apply in_map_iff in Hr.
      destruct Hr as [[k arr] [<- _]]. simpl. repeat split.
  - intros t Ht. destruct (Hcover t Ht) as [r [Hr Hm]].
    exists r. split; [exact Hr|]. split; [exact Hm|].
    destruct (Hrows r Hr) as [Htasks _]. rewrite Htasks.
    apply filter_In. split; [exact Ht|]. rewrite Hm. apply String.eqb_refl.
Qed.

Lemma teamProgress_cards_witness :
  let ts := [sample 1 "Ann" "pending"; sample 2 "Bob" "completed";
             sample 3 "Ann" "completed"] in
  exists rows,
    teamProgress ts = Ok rows /\
    NoDup (map member rows) /\
    (forall r, In r rows ->
       member_tasks r = filter (fun t => String.eqb (assignee t) (member r)) ts /\
       member_tasks r <> [] /\
       total r = List.length (member_tasks r) /\
       member_completed r = List.length (filter is_completed (member_tasks r)) /\
       progress r = percent (member_completed r) (total r) /\
       colorScheme r = getColorScheme (member r)) /\
    (forall t, In t ts ->
       exists r, In r rows /\ member r = assignee t /\ In t (member_tasks r)).
Proof.
  apply (teamProgress_cards
           [sample 1 "Ann" "pending"; sample 2 "Bob" "completed";
            sample 3 "Ann" "completed"]).
  simpl. intros t [<-|[<-|[<-|[]]]] H; simpl in H;
    repeat (destruct H as [H|H]; [discriminate H|]); exact H.
Defined.

(** ** Whole percentages *)

Lemma whole_row_sound (fuel : nat) :
  forall c0 n, whole_row fuel c0 n = true ->
  forall c, (c0 <= c < c0 + Z.of_nat fuel)%Z -> wholeZ c n = true.
Proof.
  induction fuel as [|fuel IH]; intros c0 n H c Hc; [lia|].
  simpl in H. apply andb_true_iff in H. destruct H as [H0 Hrest].
  destruct (Z.eq_dec c c0) as [->|Hne]; [exact H0|].
  apply (IH (c0 + 1)%Z n Hrest). lia.
Qed.

Lemma whole_rows_sound (fuel : nat) :
  forall n0, whole_rows fuel n0 = true -> (0 <= n0)%Z ->
  forall n c, (n0 <= n < n0 + Z.of_nat fuel)%Z -> (0 <= c <= n)%Z ->
              wholeZ c n = true.
Proof.
  induction fuel as [|fuel IH]; intros n0 H Hn0 n c Hn Hc; [lia|].
  simpl in H. apply andb_true_iff in H. destruct H as [Hrow Hrest].
  destruct (Z.eq_dec n n0) as [->|Hne].
  - apply (whole_row_sound _ _ _ Hrow). lia.
  - apply (IH (n0 + 1)%Z Hrest); lia.
Qed.

Lemma whole_checked : whole_rows checked_size 1 = true.
Proof. vm_compute. reflexivity. Qed.

Lemma percent_whole (c n : nat) :
  0 < n <= checked_size -> c <= n ->
  PrimFloat.is_nan (percent c n) = false /\
  exists p : Z,
    PrimFloat.eqb (percent c n) (of_Z p) = true /\
    (0 <= p <= 100)%Z /\
    (Z.abs (2 * (p * Z.of_nat n - 100 * Z.of_nat c)) <= Z.of_nat n)%Z.
Proof.
  intros Hn Hc.
  assert (H : wholeZ (Z.of_nat c) (Z.of_nat n) = true).
  { apply (whole_rows_sound checked_size 1 whole_checked); lia. }
  unfold wholeZ in H. rewrite <- percent_percentZ in H.
  apply orb_true_iff in H.
  destruct H as [H|H]; unfold whole_as, near in H;
    repeat (apply andb_true_iff in H; destruct H as [H ?]);
    (split; [now apply negb_true_iff|]);
    eexists; (split; [eassumption|]);
    repeat match goal with
           | E : (_ <=? _)%Z = true |- _ => apply Z.leb_le in E
           end; lia.
Qed.

(** X9: for a non-empty list (of at most [checked_size] tasks) the overall
    percentage is a whole number between 0 and 100, at most half a point away
    from the exact ratio; it is 0 when no task is completed and 100 when all
    are.  In particular it is not NaN. *)
Theorem overallProgress_whole (ts : list Task) :
  ts <> [] -> List.length ts <= checked_size ->
  PrimFloat.is_nan (overallProgress ts) = false /\
  exists p : Z,
    PrimFloat.eqb (overallProgress ts) (of_Z p) = true /\
    (0 <= p <= 100)%Z /\
    (Z.abs (2 * (p * Z.of_nat (List.length ts) - 100 * Z.of_nat (completedTasks ts)))
     <= Z.of_nat (List.length ts))%Z /\
    (completedTasks ts = 0 -> p = 0%Z) /\
    (completedTasks ts = List.length ts -> p = 100%Z).
Proof.
  intros Hne Hlen.
  assert (Hpos : 0 < List.length ts) by (destruct ts; simpl; [congruence|lia]).
  destruct (percent_whole (completedTasks ts) (List.length ts)
              (conj Hpos Hlen) (completedTasks_le ts)) as [Hnan [p [H1 [H2 H3]]]].
  split; [exact Hnan|].
  exists p. split; [exact H1|]. split; [exact H2|]. split; [exact H3|].
  split; intros E; rewrite E in H3; nia.
Qed.

Lemma overallProgress_whole_witness :
  PrimFloat.is_nan (overallProgress thirteen_of_53) = false /\
  exists p : Z,
    PrimFloat.eqb (overallProgress thirteen_of_53) (of_Z p) = true /\
    (0 <= p <= 100)%Z /\
    (Z.abs (2 * (p * Z.of_nat (List.length thirteen_of_53)
                 - 100 * Z.of_nat (completedTasks thirteen_of_53)))
     <= Z.of_nat (List.length thirteen_of_53))%Z /\
    (completedTasks thirteen_of_53 = 0 -> p = 0%Z) /\
    (completedTasks thirteen_of_53 = List.length thirteen_of_53 -> p = 100%Z).
Proof.
  apply (overallProgress_whole thirteen_of_53).
  - discriminate.
  - vm_compute. repeat constructor.
Defined.

(** X10: a card's percentage is always a defined whole number between 0 and
    100 (for lists of at most [checked_size] tasks): a member gets a card
    only with at least one task, so the division by zero of the overall
    percentage on an empty list cannot happen on a card. *)
Theorem card_progress_defined (ts : list Task) (rows : list MemberProgress) :
  teamProgress ts = Ok rows -> List.length ts <= checked_size ->
  forall r, In r rows ->
    progress r = percent (member_completed r) (total r) /\
    1 <= total r /\
    PrimFloat.is_nan (progress r) = false /\
    exists p : Z,
      PrimFloat.eqb (progress r) (of_Z p) = true /\ (0 <= p <= 100)%Z /\
      (Z.abs (2 * (p * Z.of_nat (total r) - 100 * Z.of_nat (member_completed r)))
       <= Z.of_nat (total r))%Z.
Proof.
  intros Hok Hlen r Hr.
  assert (Hplain : forall t, In t ts -> JsObject.inherited (assignee t) = false).
  { intros t Ht. destruct (JsObject.inherited (assignee t)) eqn:E; [|reflexivity].
    rewrite teamProgress_inherited in Hok; [discriminate|eauto]. }
  destruct (teamProgress_partition ts Hplain) as [rows' [Hok' [_ [Hrows _]]]].
  rewrite Hok in Hok'. inversion Hok'. subst rows'.
  destruct (Hrows r Hr) as [Htasks [Htot Hone]].
  destruct (teamProgress_Ok ts rows Hok) as [o [_ Hrows']].
  assert (Hshape : progress r = percent (member_completed r) (total r) /\
                   member_completed r <= total r).
  { rewrite Hrows' in Hr. apply in_map_iff in Hr. destruct Hr as [[k arr] [<- _]].
    simpl. split; [reflexivity|apply filter_length_le]. }
  destruct Hshape as [Hp Hle].
  assert (Hbound : total r <= checked_size).
  { rewrite Htot, Htasks. etransitivity; [apply filter_length_le|exact Hlen]. }
  destruct (percent_whole (member_completed r) (total r))
    as [Hnan [p [H1 [H2 H3]]]]; [lia|exact Hle|].
  rewrite <- Hp in H1, Hnan.
  split; [exact Hp|]. split; [exact Hone|]. split; [exact Hnan|eauto].
Qed.

Lemma card_progress_defined_witness :
  let ts := [sample 1 "Ann" "pending"; sample 2 "Bob" "completed";
             sample 3 "Ann" "completed"] in
  let r := member_entry ("Ann", [sample 1 "Ann" "pending"; sample 3 "Ann" "completed"]) in
  progress r = percent (member_completed r) (total r) /\
  1 <= total r /\
  PrimFloat.is_nan (progress r) = false /\
  exists p : Z,
    PrimFloat.eqb (progress r) (of_Z p) = true /\ (0 <= p <= 100)%Z /\
    (Z.abs (2 * (p * Z.of_nat (total r) - 100 * Z.of_nat (member_completed r)))
     <= Z.of_nat (total r))%Z.
Proof.
  apply (card_progress_defined
           [sample 1 "Ann" "pending"; sample 2 "Bob" "completed";
            sample 3 "Ann" "completed"]
           [member_entry ("Ann", [sample 1 "Ann" "pending"; sample 3 "Ann" "completed"]);
            member_entry ("Bob", [sample 2 "Bob" "completed"])]).
  - reflexivity.
  - vm_compute. repeat constructor.
  - left. reflexivity.
Defined.

(** ** Milestones in order *)

Lemma milestone_flags (ts : list Task) :
  ts <> [] -> List.length ts <= checked_size ->
  map completed (milestones ts)
  = true :: map (fun p => reached p (Z.of_nat (completedTasks ts))
                                    (Z.of_nat (List.length ts)))
                [25; 50; 75; 100]%Z.
Proof.
  intros Hne Hlen.
  assert (Hpos : 0 < List.length ts) by (destruct ts; simpl; [congruence|lia]).
  pose proof (flags_agree (completedTasks ts) (List.length ts)
                (conj Hpos Hlen) (completedTasks_le ts)) as H.
  unfold agreeZ in H. rewrite <- percent_percentZ in H.
  fold (overallProgress ts) in H.
  apply andb_true_iff in H. destruct H as [H H100].
  apply andb_true_iff in H. destruct H as [H H75].
  apply andb_true_iff in H. destruct H as [H25 H50].
  apply Bool.eqb_prop in H25, H50, H75, H100.
  unfold milestones. simpl. now rewrite H25, H50, H75, H100.
Qed.

(** X11: the milestones are reached in order: on any list of at most
    [checked_size] tasks, the empty one included, the marked milestones are
    the first ones - "Project Start" and then some of 25, 50, 75, 100 without
    a gap. *)
Theorem milestones_without_gap (ts : list Task) :
  List.length ts <= checked_size ->
  exists k, k <= 4 /\
            map completed (milestones ts) = repeat true (S k) ++ repeat false (4 - k).
Proof.
  intros Hlen. destruct ts as [|t ts'] eqn:Ets.
  - exists 0. split; [lia|]. vm_compute. reflexivity.
  - rewrite <- Ets in *.
    assert (Hne : ts <> []) by (rewrite Ets; discriminate).
    rewrite (milestone_flags ts Hne Hlen). simpl. unfold reached.
    pose proof (completedTasks_le ts) as Hle.
    assert (Hpos : 0 < List.length ts) by (rewrite Ets; simpl; lia).
    destruct (Z.leb_spec ((2 * 25 - 1) * Z.of_nat (List.length ts))
                         (200 * Z.of_nat (completedTasks ts)));
    destruct (Z.leb_spec ((2 * 50 - 1) * Z.of_nat (List.length ts))
                         (200 * Z.of_nat (completedTasks ts)));
    destruct (Z.leb_spec ((2 * 75 - 1) * Z.of_nat (List.length ts))
                         (200 * Z.of_nat (completedTasks ts)));
    destruct (Z.leb_spec ((2 * 100 - 1) * Z.of_nat (List.length ts))
                         (200 * Z.of_nat (completedTasks ts)));
    try lia;
    [exists 4|exists 3|exists 2|exists 1|exists 0]; (split; [lia|reflexivity]).
Qed.

Lemma milestones_without_gap_witness :
  exists k, k <= 4 /\
            map completed (milestones thirteen_of_53)
            = repeat true (S k) ++ repeat false (4 - k).
Proof.
  apply (milestones_without_gap thirteen_of_53).
  vm_compute. repeat constructor.
Defined.

(** X12: completing a task never takes a milestone back: with distinct ids,
    after the toggle of a task that was not completed, every milestone that
    was marked is still marked (lists of at most [checked_size] tasks). *)
Theorem completing_keeps_milestones (ts : list Task) (t : Task) :
  NoDup (map id ts) -> In t ts -> is_completed t = false ->
  List.length ts <= checked_size ->
  forall i m m',
    nth_error (milestones ts) i = Some m ->
    nth_error (milestones (toggleTaskStatus (id t) ts)) i = Some m' ->
    m_name m' = m_name m /\ percentage m' = percentage m /\
    (completed m = true -> completed m' = true).
Proof.
  intros Hnd Hin Hpend Hlen i m m' Hm Hm'.
  assert (Hne : ts <> []) by (intros ->; destruct Hin).
  pose proof (toggle_count ts t Hnd Hin) as Hc. rewrite Hpend in Hc.
  pose proof (toggle_length (id t) ts) as Hl.
  assert (Hne' : toggleTaskStatus (id t) ts <> []).
  { intros E. rewrite E in Hl. destruct ts; [congruence|discriminate]. }
  pose proof (milestone_flags ts Hne Hlen) as Hf.
  pose proof (milestone_flags _ Hne' ltac:(now rewrite Hl)) as Hf'.
  rewrite Hc, Hl in Hf'.
  assert (Hup : forall p, reached p (Z.of_nat (completedTasks ts)) (Z.of_nat (List.length ts)) = true ->
                reached p (Z.of_nat (S (completedTasks ts))) (Z.of_nat (List.length ts)) = true).
  { unfold reached. intros p Hp. apply Z.leb_le in Hp. apply Z.leb_le. lia. }
  unfold milestones in Hm, Hm', Hf, Hf'. simpl in Hf, Hf'.
  injection Hf as F25 F50 F75 F100. injection Hf' as G25 G50 G75 G100.
  destruct i as [|[|[|[|[|i]]]]]; simpl in Hm, Hm';
    try (destruct i; discriminate);
    inversion Hm; inversion Hm'; subst m m'; simpl;
    (split; [reflexivity|]); (split; [reflexivity|]); auto;
    intros Hr.
  - rewrite G25. apply Hup. now rewrite <- F25.
  - rewrite G50. apply Hup. now rewrite <- F50.
  - rewrite G75. apply Hup. now rewrite <- F75.
  - rewrite G100. apply Hup. now rewrite <- F100.
Qed.

Lemma completing_keeps_milestones_witness :
  let ts := [sample 1 "Ann" "pending"; sample 2 "Bob" "completed"] in
  let t := sample 1 "Ann" "pending" in
  let m := mkMilestone "Development Phase" 50 true in
  let m' := mkMilestone "Development Phase" 50 true in
  m_name m' = m_name m /\ percentage m' = percentage m /\
  (completed m = true -> completed m' = true).
Proof.
  apply (completing_keeps_milestones
           [sample 1 "Ann" "pending"; sample 2 "Bob" "completed"]
           (sample 1 "Ann" "pending")) with (i := 2).
  - simpl. constructor.
    + simpl. intros [H|[]]. discriminate H.
    + constructor; [simpl; tauto|constructor].
  - simpl. left. reflexivity.
  - reflexivity.
  - vm_compute. repeat constructor.
  - vm_compute. reflexivity.
  - vm_compute. reflexivity.
Defined.

End GanttViewProofs.

(* ===================================================================== *)
(** * Facts about the chat panel                                          *)
(* ===================================================================== *)

Module ChatProofs.

Import Chat.

(** ** Blank input *)

Lemma trim_start_nil (s : jsstring) :
  trim_start s = [] <-> Forall (fun c => is_white c = true) s.
Proof.
  induction s as [|c s IH]; simpl.
  - split; auto.
  - destruct (is_white c) eqn:E.
    + rewrite IH. split; intros H; [now constructor|now inversion H].
    + split; [discriminate|]. intros H. inversion H. congruence.
Qed.

Lemma trim_start_suffix (s : jsstring) : exists pre, s = pre ++ trim_start s.
Proof.
  induction s as [|c s [pre IH]]; simpl.
  - now exists [].
  - destruct (is_white c); [|now exists []].
    exists (c :: pre). simpl. now rewrite <- IH.
Qed.

Lemma trim_start_head (s : jsstring) (c : N) (rest : jsstring) :
  trim_start s = c :: rest -> is_white c = false.
Proof.
  induction s as [|x s IH]; simpl; [discriminate|].
  destruct (is_white x) eqn:E; [exact IH|]. now intros [= <- _].
Qed.

Lemma trim_nil (s : jsstring) :
  trim s = [] <-> Forall (fun c => is_white c = true) s.
Proof.
  unfold trim. split.
  - intros H. apply trim_start_nil.
    destruct (trim_start s) as [|c rest] eqn:E; [reflexivity|].
    exfalso. pose proof (trim_start_head s c rest E) as Hc.
    assert (Hr : trim_start (rev (c :: rest)) = []).
    { apply (f_equal (@rev N)) in H. now rewrite rev_involutive in H. }
    apply trim_start_nil in Hr. rewrite Forall_forall in Hr.
    rewrite (Hr c) in Hc; [discriminate|]. apply -> in_rev. now left.
  - intros H. apply trim_start_nil in H. now rewrite H.
Qed.

(** X13: [handleSend] does nothing at all - no message, no request, the
    input and the busy flag untouched - exactly when the input consists of
    white space only (the empty input included) or a request is in flight. *)
Theorem handleSend_guard (s : State) :
  (handleSend_start s = None <->
   Forall (fun c => is_white c = true) (input s) \/ isGenerating s = true) /\
  (handleSend_start s = None -> forall o, handleSend o s = s).
Proof.
  split.
  - unfold handleSend_start. rewrite <- trim_nil.
    destruct (trim (input s)) as [|c rest]; [split; auto|].
    destruct (isGenerating s); split; auto; try discriminate.
    intros [H|H]; discriminate.
  - intros H o. unfold handleSend. now rewrite H.
Qed.

(** ** One exchange *)

Lemma forallb_snoc {A} (f : A -> bool) (l : list A) (a : A) :
  forallb f (l ++ [a]) = forallb f l && f a.
Proof. rewrite forallb_app. simpl. now rewrite andb_true_r. Qed.

(** X14: an accepted [handleSend] posts to [/api/chat] the history that ends
    with the user's message (the text as typed, not trimmed), clears the
    input and ends with the busy flag off.  When [fetch] rejects, the status
    is not ok or the body is not JSON, the panel shows two more messages: the
    user's and the one error text.  When the response is ok with a JSON
    body, [data.response] is read inside the updater, outside the [try]: a
    body [null] makes that read throw, and a [response] React cannot render
    (an object, or an array holding one) makes the render throw; in both
    cases no assistant message is added and the tree is removed.  Otherwise
    the two messages are the user's and [data.response] as received
    ([undefined] when the body has no such property). *)
Theorem handleSend_exchange (s : State) (o : outcome) :
  handleSend_start s <> None ->
  forallb shows (messages s) = true ->
  let userMessage := mkMessage "user" (Text (input s)) in
  let shown m := mkState (messages s ++ [userMessage; m]) [] false (mounted s) in
  let removed := mkState (messages s ++ [userMessage]) [] false false in
  (exists s1, handleSend_start s
              = Some (s1, mkRequest "/api/chat" (messages s ++ [userMessage]))) /\
  handleSend o s
  = match o with
    | Answered true (Some data) =>
        if nullish data then removed
        else
          let r := match data with
                   | VObj fields =>
                       match own fields (lit "response") with
                       | Some v => v
                       | None => VUndefined
                       end
                   | _ => VUndefined
                   end in
          if renderable r then shown (mkMessage "assistant" (Received r))
          else removed
    | _ => shown chat_error
    end.
Proof.
  intros Hstart Hshown userMessage shown removed.
  unfold handleSend. unfold handleSend_start in *.
  destruct (trim (input s)) as [|c rest]; [congruence|].
  destruct (isGenerating s); [congruence|].
  split; [eexists; reflexivity|].
  fold userMessage.
  assert (Herr : handleSend_settle Rejected
                   (setIsGenerating true (setInput [] (append userMessage s)))
                 = shown chat_error).
  { unfold handleSend_settle, commit, chat_update, error_update.
    cbn [messages setIsGenerating setInput append].
    rewrite !forallb_snoc, Hshown. cbn.
    unfold shown. now rewrite <- app_assoc. }
  destruct o as [|[|] [data|]]; try exact Herr.
  unfold handleSend_settle, commit, chat_update, reply_update.
  cbn [messages setIsGenerating setInput append].
  assert (Hr : forall r,
             setIsGenerating false
               (if forallb shows
                     ((messages s ++ [userMessage])
                        ++ [mkMessage "assistant" (Received r)])
                then mkState ((messages s ++ [userMessage])
                                ++ [mkMessage "assistant" (Received r)])
                       [] true (mounted s)
                else unmount (mkState (messages s ++ [userMessage]) [] true (mounted s)))
             = if renderable r then shown (mkMessage "assistant" (Received r))
               else removed).
  { intros r. rewrite !forallb_snoc, Hshown. cbn [shows content_of andb userMessage].
    destruct (renderable r); cbn; [|reflexivity].
    unfold shown. now rewrite <- app_assoc. }
  destruct data as [| |b|x|str|items|fields]; cbn [prop bind nullish];
    try reflexivity; apply Hr.
Qed.

Lemma handleSend_exchange_witness :
  let s := setInput (lit " a shop ") initial in
  let o := Answered true (Some (VObj [(lit "response", VStr (lit "Which team?"))])) in
  let userMessage := mkMessage "user" (Text (lit " a shop ")) in
  (exists s1, handleSend_start s
              = Some (s1, mkRequest "/api/chat" [greeting; userMessage])) /\
  handleSend o s
  = mkState [greeting; userMessage;
             mkMessage "assistant" (Received (VStr (lit "Which team?")))]
            [] false true.
Proof.
  apply (handleSend_exchange
           (setInput (lit " a shop ") initial)
           (Answered true (Some (VObj [(lit "response", VStr (lit "Which team?"))])))).
  - vm_compute. discriminate.
  - reflexivity.
Defined.

End ChatProofs.
